(** * zen: form binding and response encoding of [context.go]

    A shallow embedding of [context.go] (package [zen]) and the properties of
    its form binder [parseValidForm] and of its response encoders.

    The file follows the Go source.  The functions of the repository
    ([parseValidForm], [scan], [valid], [Context.ParseValidForm],
    [Context.Head], [Context.JSON], [Context.XML], [Context.ASN1]) are
    translated line by line.  What they call in Go's standard library is
    either modelled here ([strconv.ParseBool], [strconv.ParseUint],
    [strconv.ParseInt], [url.Values.Get], [reflect.Value.Set...],
    [textproto.CanonicalMIMEHeaderKey]) or taken as an interface
    ([regexp], [strconv.ParseFloat], the encoders, [http.Request.ParseForm]):
    the theorems then hold for every implementation of the interface. *)

From Stdlib Require Import ZArith String Ascii List Bool Lia DecimalString.
From Stdlib Require Import Floats.SpecFloat.
From stdpp Require Import base option list gmap strings.

Set Default Proof Using "Type".

(** ** Go's [error] values *)

Module errors.

(** The sentinel errors a [*strconv.NumError] wraps. *)
Inductive numErr : Type :=
| ErrSyntax
| ErrRange
| ErrBitSize (bitSize : Z).

(** The dynamic types of the errors that reach the callers of
    [context.go].  A Go [error] that is [nil] is [None : option error]. *)
Inductive error : Type :=
| errorString (s : string)                       (* errors.New(s) *)
| NumError (Func Num : string) (Err : numErr)    (* *strconv.NumError *)
| regexpError (Code Expr : string)               (* *regexp/syntax.Error *)
| libError (pkg msg : string).                   (* any other library error *)

(** [errors.New] *)
Definition New (text : string) : error := errorString text.

#[export] Instance numErr_eq_dec : EqDecision numErr.
Proof. solve_decision. Defined.

#[export] Instance error_eq_dec : EqDecision error.
Proof. solve_decision. Defined.

End errors.
Export errors.

(** ** The platform: the width of [int], [uint] and [uintptr] *)

Class Platform : Type := {
  IntSize : Z;
  IntSize_32_or_64 : IntSize = 32%Z \/ IntSize = 64%Z
}.

(** ** Package [strconv] *)

Module strconv.

Local Open Scope Z_scope.

Definition syntaxError (fn str : string) : error := NumError fn str ErrSyntax.
Definition rangeError (fn str : string) : error := NumError fn str ErrRange.
Definition bitSizeError (fn str : string) (bitSize : Z) : error :=
  NumError fn str (ErrBitSize bitSize).

Definition fnParseBool : string := "ParseBool".
Definition fnParseUint : string := "ParseUint".
Definition fnParseInt : string := "ParseInt".
Definition fnParseFloat : string := "ParseFloat".

(** [strconv.ParseBool]: the twelve accepted spellings. *)
Definition ParseBool (str : string) : bool * option error :=
  if bool_decide (str ∈ ["1"; "t"; "T"; "true"; "TRUE"; "True"]%string)
  then (true, None)
  else if bool_decide (str ∈ ["0"; "f"; "F"; "false"; "FALSE"; "False"]%string)
  then (false, None)
  else (false, Some (syntaxError fnParseBool str)).

Definition maxUint64 : Z := 2 ^ 64 - 1.

(** The digit a byte stands for in base 10.  Every other byte, a letter
    (a digit of value 10 or more) and the underscore included, is a syntax
    error in base 10. *)
Definition digit10 (c : ascii) : option Z :=
  let n := Z.of_N (N_of_ascii c) in
  if (48 <=? n) && (n <=? 57) then Some (n - 48) else None.

Section ParseUint.
Variables (s0 : string) (maxVal : Z).

(** [cutoff] is the smallest number such that [cutoff * 10 > maxUint64]. *)
Definition cutoff10 : Z := maxUint64 / 10 + 1.

(** The loop [for _, c := range []byte(s)] of [ParseUint], on the
    bytes still to read and the accumulator [n : uint64]. *)
Fixpoint parseUint_loop (cs : list ascii) (n : Z) : Z * option error :=
  match cs with
  | [] => (n, None)
  | c :: cs' =>
      match digit10 c with
      | None => (0, Some (syntaxError fnParseUint s0))
      | Some d =>
          if cutoff10 <=? n
          then (maxVal, Some (rangeError fnParseUint s0))   (* n*base overflows *)
          else
            let n := (n * 10) mod 2 ^ 64 in
            let n1 := (n + d) mod 2 ^ 64 in
            if (n1 <? n) || (maxVal <? n1)
            then (maxVal, Some (rangeError fnParseUint s0)) (* n+d overflows *)
            else parseUint_loop cs' n1
      end
  end.
End ParseUint.

(** [strconv.ParseUint(s, 10, bitSize)].  The repository only passes base
    10, so the base is fixed; [bitSize] is kept. *)
Definition ParseUint `{Platform} (s : string) (bitSize : Z) : Z * option error :=
  if bool_decide (s = "")
  then (0, Some (syntaxError fnParseUint s))
  else if (bitSize <? 0) || (64 <? bitSize)
  then (0, Some (bitSizeError fnParseUint s bitSize))
  else
    let bitSize := if bitSize =? 0 then IntSize else bitSize in
    let maxVal := (2 ^ bitSize - 1) mod 2 ^ 64 in
    parseUint_loop s maxVal (list_ascii_of_string s) 0.

(** [strconv.ParseInt(s, 10, bitSize)]. *)
Definition ParseInt `{Platform} (s : string) (bitSize : Z) : Z * option error :=
  match s with
  | EmptyString => (0, Some (syntaxError fnParseInt s))
  | String c rest =>
      let s0 := s in
      (* Pick off leading sign. *)
      let '(neg, s) :=
        if bool_decide (c = "+"%char) then (false, rest)
        else if bool_decide (c = "-"%char) then (true, rest)
        else (false, s) in
      (* Convert unsigned and check range. *)
      let '(un, err) := ParseUint s bitSize in
      match err with
      | Some (NumError _ _ ErrRange) | None =>
          let bitSize := if bitSize =? 0 then IntSize else bitSize in
          let cutoff := (2 ^ (bitSize - 1)) mod 2 ^ 64 in
          if negb neg && (cutoff <=? un)
          then (cutoff - 1, Some (rangeError fnParseInt s0))
          else if neg && (cutoff <? un)
          then (- cutoff, Some (rangeError fnParseInt s0))
          else (if neg then - un else un, None)
      | Some (NumError _ _ e) => (0, Some (NumError fnParseInt s0 e))
      | Some e => (0, Some e)
      end
  end.

End strconv.

(** The part of [strconv] taken as an interface: floating-point parsing and
    the quoting used in error messages.  [float64] and [float32] are Go's
    types of that name, [to_float32] is the conversion [float32(x)]. *)
Class StrconvFloat : Type := {
  float64 : Type;
  float32 : Type;
  to_float32 : float64 -> float32;
  (** [strconv.ParseFloat(s, 64)] *)
  ParseFloat64 : string -> float64 * option error;
  (** the empty string is not a number: [ParseFloat] reports [ErrSyntax] *)
  ParseFloat64_empty :
    snd (ParseFloat64 "") = Some (strconv.syntaxError strconv.fnParseFloat "");
  (** [strconv.Quote] *)
  Quote : string -> string
}.

(** ** Package [regexp], as an interface

    [Compile] parses a pattern and reports a [*syntax.Error] for an invalid
    one; [MatchString] reports whether the string contains a match. *)
Class RegexpPkg : Type := {
  Regexp : Type;
  Compile : string -> Regexp + error;
  MatchString : Regexp -> string -> bool
}.

(** ** Package [net/url]: [url.Values] is [map[string][]string] *)

Module url.

Abbreviation Values := (gmap string (list string)).

(** [Values.Get]: the first value under the key, [""] when there is none. *)
Definition Get (v : Values) (key : string) : string :=
  match v !! key with
  | Some (x :: _) => x
  | Some [] | None => ""
  end.

End url.

(** ** Package [net/textproto]: canonical header keys *)

Module textproto.

Definition isLower (c : ascii) : bool :=
  let n := N_of_ascii c in ((97 <=? n) && (n <=? 122))%N.
Definition isUpper (c : ascii) : bool :=
  let n := N_of_ascii c in ((65 <=? n) && (n <=? 90))%N.
Definition isDigit (c : ascii) : bool :=
  let n := N_of_ascii c in ((48 <=? n) && (n <=? 57))%N.

(** The token bytes of RFC 7230. *)
Definition validHeaderFieldByte (c : ascii) : bool :=
  isLower c || isUpper c || isDigit c
  || bool_decide (c ∈ list_ascii_of_string "!#$%&'*+-.^_`|~").

Definition toUpper (c : ascii) : ascii :=
  if isLower c then ascii_of_N (N_of_ascii c - 32) else c.
Definition toLower (c : ascii) : ascii :=
  if isUpper c then ascii_of_N (N_of_ascii c + 32) else c.

(** First letter upper case and upper case after each dash. *)
Fixpoint canonical (upper : bool) (a : list ascii) : list ascii :=
  match a with
  | [] => []
  | c :: a' =>
      let c := if upper then toUpper c else toLower c in
      c :: canonical (bool_decide (c = "-"%char)) a'
  end.

(** [textproto.CanonicalMIMEHeaderKey]: a key with a byte that is not a
    token byte (a space included) is returned unchanged. *)
Definition CanonicalMIMEHeaderKey (s : string) : string :=
  let a := list_ascii_of_string s in
  if forallb validHeaderFieldByte a
  then string_of_list_ascii (canonical true a)
  else s.

End textproto.

(** ** Package [reflect]: kinds, struct tags and settable values *)

Module reflect.

Inductive Kind : Type :=
| Invalid | Bool
| Int | Int8 | Int16 | Int32 | Int64
| Uint | Uint8 | Uint16 | Uint32 | Uint64 | Uintptr
| Float32 | Float64 | Complex64 | Complex128
| Array | Chan | Func | Interface | Map | Pointer | Slice
| String | Struct | UnsafePointer.

#[global] Instance Kind_eq_dec : EqDecision Kind.
Proof. solve_decision. Defined.

(** A struct tag, as the list of its [key:"value"] pairs in the order
    they are written. *)
Definition StructTag : Type := list (string * string).

(** [StructTag.Get]: the value of the first pair under [key], [""] when
    the tag has no such key. *)
Fixpoint Get (tag : StructTag) (key : string) : string :=
  match tag with
  | [] => ""
  | (k, v) :: tag' => if bool_decide (k = key) then v else Get tag' key
  end.

Record StructField : Type := { Name : string; Tag : StructTag }.

(** The width in bits of the integer kinds. *)
Definition bits `{Platform} (k : Kind) : Z :=
  match k with
  | Int8 | Uint8 => 8
  | Int16 | Uint16 => 16
  | Int32 | Uint32 => 32
  | Int64 | Uint64 => 64
  | Int | Uint | Uintptr => IntSize
  | _ => 0
  end%Z.

(** The conversions [intN(x)] of an [int64] and [uintN(x)] of a [uint64]:
    the low [w] bits, read as two's complement or as a natural number. *)
Definition wrap_signed (w x : Z) : Z :=
  let m := (x mod 2 ^ w)%Z in
  if (m <? 2 ^ (w - 1))%Z then m else (m - 2 ^ w)%Z.

Definition wrap_unsigned (w x : Z) : Z := (x mod 2 ^ w)%Z.

Section Value.
Context `{Platform} `{StrconvFloat}.

(** What a field holds. *)
Inductive data : Type :=
| VString (s : string)
| VBool (b : bool)
| VInt (i : Z)
| VUint (u : Z)
| VFloat32 (f : float32)
| VFloat64 (f : float64)
| VOther (repr : string).

(** A [reflect.Value] for a field reached through a struct pointer: its
    kind, whether it can be set (the field is exported) and what it
    holds. *)
Record Value : Type := { Kind_of : Kind; CanSet : bool; held : data }.

Definition store (v : Value) (d : data) : Value :=
  {| Kind_of := Kind_of v; CanSet := CanSet v; held := d |}.

(** The setters panic ([None]) on a value that cannot be set or is of
    another kind. *)
Definition SetString (v : Value) (x : string) : option Value :=
  if negb (CanSet v) then None
  else match Kind_of v with
       | String => Some (store v (VString x))
       | _ => None
       end.

Definition SetBool (v : Value) (x : bool) : option Value :=
  if negb (CanSet v) then None
  else match Kind_of v with
       | Bool => Some (store v (VBool x))
       | _ => None
       end.

Definition SetInt (v : Value) (x : Z) : option Value :=
  if negb (CanSet v) then None
  else match Kind_of v with
       | Int | Int8 | Int16 | Int32 | Int64 =>
           Some (store v (VInt (wrap_signed (bits (Kind_of v)) x)))
       | _ => None
       end.

Definition SetUint (v : Value) (x : Z) : option Value :=
  if negb (CanSet v) then None
  else match Kind_of v with
       | Uint | Uintptr | Uint8 | Uint16 | Uint32 | Uint64 =>
           Some (store v (VUint (wrap_unsigned (bits (Kind_of v)) x)))
       | _ => None
       end.

Definition SetFloat (v : Value) (x : float64) : option Value :=
  if negb (CanSet v) then None
  else match Kind_of v with
       | Float32 => Some (store v (VFloat32 (to_float32 x)))
       | Float64 => Some (store v (VFloat64 x))
       | _ => None
       end.

(** [NumField] of the value behind a struct pointer. *)
Definition NumField (sv : list (StructField * Value)) : nat := length sv.

End Value.

(** The value behind a struct pointer: its fields in declaration order,
    each with its [StructField] and its [Value]. *)
Abbreviation StructValue := (list (StructField * Value)).

End reflect.


(** ** Package [net/http], as far as [context.go] uses it *)

Module http.

(** What is done to a response writer, in the order it is done. *)
Inductive event : Type :=
| EvHeaderAdd (key value : string)      (* Header().Add(key, value) *)
| EvWriteHeader (code : Z)              (* WriteHeader(code) *)
| EvWrite (p : list Byte.byte).         (* Write(p) *)

(** [http.Header] is [map[string][]string]. *)
Abbreviation Header := (gmap string (list string)).

(** [Header.Add]: appends to the values under the canonical key. *)
Definition Add (h : Header) (key value : string) : Header :=
  let key := textproto.CanonicalMIMEHeaderKey key in
  <[key := default [] (h !! key) ++ [value]]> h.

(** A response writer: the header map [Header()] returns, and the record of
    the calls made on the writer. *)
Record ResponseWriter : Type := { header : Header; log : list event }.

End http.

(** [Request.ParseForm] and the outcome of a [Write] on the
    connection are the HTTP server's. *)
Class NetHTTP : Type := {
  Request : Type;
  (** [r.ParseForm()]: fills [r.Form]; reports a malformed body or query *)
  ParseForm : Request -> Request * option error;
  (** the field [r.Form] *)
  Form : Request -> url.Values;
  (** the error of a [Write(p)], given the calls made before it *)
  write_error : list http.event -> list Byte.byte -> option error
}.

(** ** The encoders of [encoding/json], [encoding/xml] and [encoding/asn1]

    [any] is [interface{}].  The JSON encoder marshals into a buffer of its
    own; the XML encoder marshals through a [bufio.Writer], which may flush
    chunks to the writer while the value is being marshalled and keeps the
    rest for the final [Flush]. *)
Class Encoders : Type := {
  any : Type;
  json_marshal : any -> list Byte.byte + error;
  xml_marshalValue : any -> list (list Byte.byte) * list Byte.byte * option error;
  asn1_Marshal : any -> list Byte.byte + error
}.

(** * Package [zen]: [context.go] *)

Definition inputTagName : string := "form".
Definition validTagName : string := "valid".
Definition validMsgName : string := "msg".

Definition applicationJSON : string := "application/json".
Definition applicationXML : string := "application/xml".
Definition textXML : string := "text/xml".
Definition applicationASN1 : string := "application/asn1".
Definition contentType : string := "Content-Type".

Abbreviation Value := reflect.Value.
Abbreviation StructValue := reflect.StructValue.
Abbreviation Field := (reflect.StructField * Value)%type.

Section Zen.
Context `{Platform} `{StrconvFloat} `{RegexpPkg} `{NetHTTP} `{Encoders}.

(** [func valid(s string, validate, msg string) error] *)
Definition valid (s validate msg : string) : option error :=
  if bool_decide (validate = "") then None
  else
    match Compile validate with
    | inr err => Some err
    | inl rxp =>
        if negb (MatchString rxp s) then Some (errors.New msg) else None
    end.

(** [func scan(v reflect.Value, s string) error].  The value is updated in
    place in Go: the result is the value after the call and the error
    returned, or [None] should a setter panic. *)
Definition scan (v : Value) (s : string) : option (Value * option error) :=
  if negb (reflect.CanSet v) then Some (v, None)
  else
    match reflect.Kind_of v with
    | reflect.String =>
        v' ← reflect.SetString v s; Some (v', None)
    | reflect.Bool =>
        let '(b, err) := strconv.ParseBool s in
        match err with
        | Some e => Some (v, Some e)
        | None => v' ← reflect.SetBool v b; Some (v', None)
        end
    | reflect.Int | reflect.Int8 | reflect.Int16 | reflect.Int32 | reflect.Int64 =>
        let '(i, err) := strconv.ParseInt s 64 in
        match err with
        | Some e => Some (v, Some e)
        | None => v' ← reflect.SetInt v i; Some (v', None)
        end
    | reflect.Uint | reflect.Uint8 | reflect.Uint16 | reflect.Uint32 | reflect.Uint64 =>
        let '(x, err) := strconv.ParseUint s 64 in
        match err with
        | Some e => Some (v, Some e)
        | None => v' ← reflect.SetUint v x; Some (v', None)
        end
    | reflect.Float32 | reflect.Float64 =>
        let '(f, err) := ParseFloat64 s in
        match err with
        | Some e => Some (v, Some e)
        | None => v' ← reflect.SetFloat v f; Some (v', None)
        end
    | _ => Some (v, None)
    end.

(** The body of the loop of [parseValidForm], for the field [fld] (its
    [StructField] and its [Value]): the form value is fetched, validated and
    scanned into the field. *)
Definition parseValidForm_body (form : url.Values)
    (fld : reflect.StructField * Value)
  : option ((reflect.StructField * Value) * option error) :=
  let tag := reflect.Tag (fst fld) in
  let formName := reflect.Get tag inputTagName in
  let validate := reflect.Get tag validTagName in
  let validateMsg := reflect.Get tag validMsgName in
  let field := snd fld in
  let formValue := url.Get form formName in
  (* validate form with regex *)
  match valid formValue validate validateMsg with
  | Some err => Some (fld, Some err)
  | None =>
      (* scan form string value into field *)
      '(field', err) ← scan field formValue;
      Some ((fst fld, field'), err)
  end.

(** The loop [for i := 0; i < inputValue.NumField(); i++], from index [i]
    with [n] fields still to visit.  A field is read and written back by its
    index; the first error ends the loop. *)
Fixpoint parseValidForm_loop (form : url.Values) (n i : nat)
    (inputValue : StructValue) : option (StructValue * option error) :=
  match n with
  | O => Some (inputValue, None)
  | S n' =>
      fld ← inputValue !! i;
      '(fld', err) ← parseValidForm_body form fld;
      let inputValue := <[i := fld']> inputValue in
      match err with
      | Some e => Some (inputValue, Some e)
      | None => parseValidForm_loop form n' (S i) inputValue
      end
  end.

(** [func parseValidForm(input interface{}, form url.Values) error], for an
    [input] that points to a struct: [inputValue] is what it points to. *)
Definition parseValidForm (inputValue : StructValue) (form : url.Values)
  : option (StructValue * option error) :=
  parseValidForm_loop form (reflect.NumField inputValue) 0 inputValue.

(** [Context] wraps request and response writer. *)
Record Context : Type := { req : Request; rw : http.ResponseWriter }.

(** [func (c *Context) ParseValidForm(input interface{}) error] *)
Definition ParseValidForm (c : Context) (input : StructValue)
  : option (Context * StructValue * option error) :=
  let '(r, err) := ParseForm (req c) in
  let c := {| req := r; rw := rw c |} in
  match err with
  | Some e => Some (c, input, Some e)
  | None =>
      '(input', err) ← parseValidForm input (Form r);
      Some (c, input', err)
  end.

(** [rw.Header().Add(k, v)] and [rw.Write(p)] on the response writer. *)
Definition rw_Header_Add (w : http.ResponseWriter) (k v : string)
  : http.ResponseWriter :=
  {| http.header := http.Add (http.header w) k v;
     http.log := http.log w ++ [http.EvHeaderAdd (textproto.CanonicalMIMEHeaderKey k) v] |}.

Definition rw_Write (w : http.ResponseWriter) (p : list Byte.byte)
  : http.ResponseWriter * option error :=
  ({| http.header := http.header w; http.log := http.log w ++ [http.EvWrite p] |},
   write_error (http.log w) p).

Definition rw_WriteHeader (w : http.ResponseWriter) (code : Z)
  : http.ResponseWriter :=
  {| http.header := http.header w; http.log := http.log w ++ [http.EvWriteHeader code] |}.

(** [func (c *Context) Head(k, v string)] *)
Definition Head (c : Context) (k v : string) : Context :=
  {| req := req c; rw := rw_Header_Add (rw c) k v |}.

(** [func (c *Context) Status(code int)] *)
Definition Status (c : Context) (code : Z) : Context :=
  {| req := req c; rw := rw_WriteHeader (rw c) code |}.

(** [json.NewEncoder(w).Encode(i)]: nothing is written when marshalling
    fails; otherwise the encoding and a newline go out in one [Write]. *)
Definition json_Encode (w : http.ResponseWriter) (i : any)
  : http.ResponseWriter * option error :=
  match json_marshal i with
  | inr err => (w, Some err)
  | inl b => rw_Write w (b ++ [Byte.x0a])
  end.

(** The chunks a [bufio.Writer] passes on, until a [Write] fails. *)
Fixpoint write_chunks (w : http.ResponseWriter) (chunks : list (list Byte.byte))
  : http.ResponseWriter * option error :=
  match chunks with
  | [] => (w, None)
  | p :: chunks' =>
      let '(w', err) := rw_Write w p in
      match err with
      | Some e => (w', Some e)
      | None => write_chunks w' chunks'
      end
  end.

(** [xml.NewEncoder(w).Encode(i)]: [marshalValue], then [Flush]. *)
Definition xml_Encode (w : http.ResponseWriter) (i : any)
  : http.ResponseWriter * option error :=
  let '(flushed, buffered, merr) := xml_marshalValue i in
  let '(w', werr) := write_chunks w flushed in
  match werr, merr with
  | Some e, _ => (w', Some e)
  | None, Some e => (w', Some e)
  | None, None =>
      match buffered with
      | [] => (w', None)
      | _ => rw_Write w' buffered
      end
  end.

(** [func (c *Context) JSON(i interface{}) (err error)] *)
Definition JSON (c : Context) (i : any) : Context * option error :=
  (* write http status code *)
  let c := Head c contentType applicationJSON in
  (* Encode json data to rw *)
  let '(w, err) := json_Encode (rw c) i in
  ({| req := req c; rw := w |}, err).

(** [func (c *Context) XML(i interface{}) (err error)] *)
Definition XML (c : Context) (i : any) : Context * option error :=
  let c := Head c contentType applicationXML in
  let '(w, err) := xml_Encode (rw c) i in
  ({| req := req c; rw := w |}, err).

(** [func (c *Context) ASN1(i interface{}) (err error)] *)
Definition ASN1 (c : Context) (i : any) : Context * option error :=
  let c := Head c contentType applicationASN1 in
  match asn1_Marshal i with
  | inr err => (c, Some err)
  | inl bts =>
      let '(w, err) := rw_Write (rw c) bts in
      ({| req := req c; rw := w |}, err)
  end.

End Zen.

(** * Implementations of the interfaces

    Each interface above is given one implementation, on which the
    functions of [context.go] can be run.  They stand for Go's packages on
    the inputs of the examples below; the theorems do not depend on them. *)

Module Model.

(** ** A 64-bit platform *)

Definition amd64 : Platform :=
  {| IntSize := 64; IntSize_32_or_64 := or_intror eq_refl |}.

(** ** Regular expressions over bytes

    A fragment of the syntax of [regexp]: literals, [.], [^], [$], escapes,
    bracket classes, groups, [|], and the operators [*], [+], [?] (greedy or
    not).  A pattern with anything else (counted repetition, flags, named
    classes) is answered by a [libError]: the model says nothing of it.
    Matching is by derivatives. *)

Inductive re : Type :=
| Fail | Eps | Bol | Eol
| Bytes (neg : bool) (ranges : list (N * N))
| Cat (r1 r2 : re)
| Alt (r1 r2 : re)
| Star (r : re).

Definition in_ranges (c : N) (ranges : list (N * N)) : bool :=
  existsb (fun lh => (fst lh <=? c) && (c <=? snd lh))%N ranges.

(** [b]: at the beginning of the text; [e]: at its end. *)
Fixpoint nullable (b e : bool) (r : re) : bool :=
  match r with
  | Fail | Bytes _ _ => false
  | Eps | Star _ => true
  | Bol => b
  | Eol => e
  | Cat r1 r2 => nullable b e r1 && nullable b e r2
  | Alt r1 r2 => nullable b e r1 || nullable b e r2
  end.

Definition cat (r1 r2 : re) : re :=
  match r1, r2 with
  | Fail, _ | _, Fail => Fail
  | Eps, r | r, Eps => r
  | _, _ => Cat r1 r2
  end.

Definition alt (r1 r2 : re) : re :=
  match r1, r2 with
  | Fail, r | r, Fail => r
  | _, _ => Alt r1 r2
  end.

Fixpoint deriv (b : bool) (c : N) (r : re) : re :=
  match r with
  | Fail | Eps | Bol | Eol => Fail
  | Bytes neg ranges => if xorb neg (in_ranges c ranges) then Eps else Fail
  | Cat r1 r2 =>
      let d := cat (deriv b c r1) r2 in
      if nullable b false r1 then alt d (deriv b c r2) else d
  | Alt r1 r2 => alt (deriv b c r1) (deriv b c r2)
  | Star r1 => cat (deriv b c r1) (Star r1)
  end.

Fixpoint matches (b : bool) (r : re) (cs : list ascii) : bool :=
  match cs with
  | [] => nullable b true r
  | c :: cs' => matches false (deriv b (N_of_ascii c) r) cs'
  end.

Definition any_byte : re := Bytes true [].

(** [MatchString]: the text contains a match. *)
Definition contains_match (r : re) (s : string) : bool :=
  matches true (Cat (Star any_byte) (Cat r (Star any_byte))) (list_ascii_of_string s).

Definition lit (c : ascii) : re := Bytes false [(N_of_ascii c, N_of_ascii c)].
Definition digit_ranges : list (N * N) := [(48, 57)]%N.
Definition word_ranges : list (N * N) := [(48, 57); (65, 90); (95, 95); (97, 122)]%N.
Definition space_ranges : list (N * N) := [(9, 10); (12, 13); (32, 32)]%N.

Definition unsupported : error := libError "regexp" "pattern outside the modelled fragment".

Definition is_alnum (c : ascii) : bool :=
  textproto.isLower c || textproto.isUpper c || textproto.isDigit c.

(** What follows a backslash: the set of bytes it stands for. *)
Definition parse_escape (c : ascii) : (bool * list (N * N)) + error :=
  if bool_decide (c = "d"%char) then inl (false, digit_ranges)
  else if bool_decide (c = "D"%char) then inl (true, digit_ranges)
  else if bool_decide (c = "w"%char) then inl (false, word_ranges)
  else if bool_decide (c = "W"%char) then inl (true, word_ranges)
  else if bool_decide (c = "s"%char) then inl (false, space_ranges)
  else if bool_decide (c = "S"%char) then inl (true, space_ranges)
  else if bool_decide (c = "n"%char) then inl (false, [(10, 10)]%N)
  else if bool_decide (c = "r"%char) then inl (false, [(13, 13)]%N)
  else if bool_decide (c = "t"%char) then inl (false, [(9, 9)]%N)
  else if is_alnum c || (128 <=? N_of_ascii c)%N then inr unsupported
  else inl (false, [(N_of_ascii c, N_of_ascii c)]).

Definition errTrailingBackslash : error :=
  regexpError "trailing backslash at end of expression" "".

(** The inside of a bracket class, after [[] and an optional [^]; [from]
    is the text from the bracket on, for the error. *)
Fixpoint parse_class (fuel : nat) (from : string) (first : bool)
    (cs : list ascii) (acc : list (N * N)) : (list (N * N) * list ascii) + error :=
  match fuel with
  | O => inr unsupported
  | S fuel =>
      match cs with
      | [] => inr (regexpError "missing closing ]" from)
      | c :: cs' =>
          if bool_decide (c = "]"%char) && negb first then inl (acc, cs')
          else if bool_decide (c = "["%char) then inr unsupported
          else if bool_decide (c = "\"%char) then
            match cs' with
            | [] => inr errTrailingBackslash
            | x :: cs'' =>
                match parse_escape x with
                | inl (false, ranges) => parse_class fuel from false cs'' (acc ++ ranges)
                | inl (true, _) => inr unsupported
                | inr e => inr e
                end
            end
          else
            match cs' with
            | d :: hi :: cs'' =>
                if bool_decide (d = "-"%char) && negb (bool_decide (hi = "]"%char)) then
                  if bool_decide (hi = "\"%char) then inr unsupported
                  else if (N_of_ascii hi <? N_of_ascii c)%N
                  then inr (regexpError "invalid character class range"
                              (string_of_list_ascii [c; d; hi]))
                  else parse_class fuel from false cs'' (acc ++ [(N_of_ascii c, N_of_ascii hi)])
                else parse_class fuel from false cs' (acc ++ [(N_of_ascii c, N_of_ascii c)])
            | _ => parse_class fuel from false cs' (acc ++ [(N_of_ascii c, N_of_ascii c)])
            end
      end
  end.

Definition is_repeat_op (c : ascii) : bool :=
  bool_decide (c = "*"%char) || bool_decide (c = "+"%char) || bool_decide (c = "?"%char).

Definition repeat (op : ascii) (r : re) : re :=
  if bool_decide (op = "*"%char) then Star r
  else if bool_decide (op = "+"%char) then Cat r (Star r)
  else Alt r Eps.

(** The parser state: the alternatives closed by a [|], the concatenation
    under way, and the last atom with the operators applied to it. *)
Record pstate : Type :=
  { alts : option re; cur : re; last : option (re * list ascii) }.

Definition push (st : pstate) (r : re) : pstate :=
  {| alts := alts st;
     cur := match last st with Some (a, _) => cat (cur st) a | None => cur st end;
     last := Some (r, []) |}.

Definition finish (st : pstate) : re :=
  let c := match last st with Some (a, _) => cat (cur st) a | None => cur st end in
  match alts st with Some a => Alt a c | None => c end.

Definition start : pstate := {| alts := None; cur := Eps; last := None |}.

(** The parser stops at the end of the pattern or at a closing parenthesis,
    which is left in the rest for the caller to check. *)
Fixpoint parse (fuel : nat) (whole : string) (cs : list ascii) (st : pstate)
  : (re * list ascii) + error :=
  match fuel with
  | O => inr unsupported
  | S fuel =>
      match cs with
      | [] => inl (finish st, [])
      | c :: cs' =>
          if bool_decide (c = ")"%char) then inl (finish st, cs)
          else if bool_decide (c = "|"%char) then
            parse fuel whole cs' {| alts := Some (finish st); cur := Eps; last := None |}
          else if bool_decide (c = "("%char) then
            match cs' with
            | q :: _ =>
                if bool_decide (q = "?"%char) then inr unsupported
                else
                  match parse fuel whole cs' start with
                  | inl (r, _ :: rest) => parse fuel whole rest (push st r)
                  | inl (_, []) => inr (regexpError "missing closing )" whole)
                  | inr e => inr e
                  end
            | [] => inr (regexpError "missing closing )" whole)
            end
          else if is_repeat_op c then
            match last st with
            | None =>
                inr (regexpError "missing argument to repetition operator"
                       (string_of_list_ascii [c]))
            | Some (a, []) =>
                parse fuel whole cs'
                  {| alts := alts st; cur := cur st; last := Some (repeat c a, [c]) |}
            | Some (a, [op]) =>
                if bool_decide (c = "?"%char) then
                  (* not greedy: the same set of matches *)
                  parse fuel whole cs'
                    {| alts := alts st; cur := cur st; last := Some (a, [op; c]) |}
                else inr (regexpError "invalid nested repetition operator"
                            (string_of_list_ascii [op; c]))
            | Some (a, ops) =>
                inr (regexpError "invalid nested repetition operator"
                       (string_of_list_ascii (ops ++ [c])))
            end
          else if bool_decide (c = "{"%char) then inr unsupported
          else if bool_decide (c = "."%char) then
            parse fuel whole cs' (push st (Bytes true [(10, 10)]%N))
          else if bool_decide (c = "^"%char) then parse fuel whole cs' (push st Bol)
          else if bool_decide (c = "$"%char) then parse fuel whole cs' (push st Eol)
          else if bool_decide (c = "\"%char) then
            match cs' with
            | [] => inr errTrailingBackslash
            | x :: cs'' =>
                match parse_escape x with
                | inl (neg, ranges) => parse fuel whole cs'' (push st (Bytes neg ranges))
                | inr e => inr e
                end
            end
          else if bool_decide (c = "["%char) then
            let '(neg, body) :=
              match cs' with
              | x :: cs'' => if bool_decide (x = "^"%char) then (true, cs'') else (false, cs')
              | [] => (false, cs')
              end in
            match parse_class (S (length body)) (string_of_list_ascii cs) true body [] with
            | inl (ranges, rest) => parse fuel whole rest (push st (Bytes neg ranges))
            | inr e => inr e
            end
          else parse fuel whole cs' (push st (lit c))
      end
  end.

(** [regexp.Compile] on the fragment. *)
Definition compile (expr : string) : re + error :=
  let cs := list_ascii_of_string expr in
  match parse (S (length cs)) expr cs start with
  | inl (r, []) => inl r
  | inl (_, _ :: _) => inr (regexpError "unexpected )" expr)
  | inr e => inr e
  end.

Definition regexp : RegexpPkg :=
  {| Regexp := re; Compile := compile; MatchString := contains_match |}.

(** ** Floating point: binary64 and binary32 as [spec_float]

    [strconv.ParseFloat] is modelled on its exact path, the one of
    [atof64exact]: an optional sign, decimal digits and an optional
    fraction, with a mantissa below [2^53] and at most 22 fraction digits;
    the value is then one correctly rounded division of two floats.  A text
    with a byte that no float literal has is a syntax error.  Any other text
    is answered by a [libError]: the model says nothing of it. *)

Definition prec64 : Z := 53.
Definition emax64 : Z := 1024.
Definition prec32 : Z := 24.
Definition emax32 : Z := 128.

(** [float32(x)]: round to nearest even at 24 bits. *)
Definition round32 (x : spec_float) : spec_float :=
  match x with
  | S754_finite s m e => binary_round prec32 emax32 s m e
  | _ => x
  end.

Fixpoint read_digits (cs : list ascii) (acc : Z) (n : nat) : Z * nat * list ascii :=
  match cs with
  | c :: cs' =>
      match strconv.digit10 c with
      | Some d => read_digits cs' (acc * 10 + d)%Z (S n)
      | None => (acc, n, cs)
      end
  | [] => (acc, n, cs)
  end.

(** The bytes a decimal or hexadecimal float literal, [Inf], [Infinity] or
    [NaN] may have. *)
Definition float_byte (c : ascii) : bool :=
  textproto.isDigit c
  || bool_decide (c ∈ list_ascii_of_string "+-._abcdefABCDEFxXpPiInNtTyY").

Definition exact_float (neg : bool) (m : Z) (k : nat) : spec_float :=
  let num := binary_normalize prec64 emax64 m 0 false in
  let den := binary_normalize prec64 emax64 (10 ^ Z.of_nat k) 0 false in
  let q := SFdiv prec64 emax64 num den in
  if neg then SFopp q else q.

Definition parseFloat (s : string) : spec_float * option error :=
  let cs := list_ascii_of_string s in
  let bad := (S754_zero false, Some (strconv.syntaxError strconv.fnParseFloat s)) in
  if bool_decide (s = "") || negb (forallb float_byte cs) then bad
  else
    let '(neg, body) :=
      match cs with
      | c :: cs' =>
          if bool_decide (c = "+"%char) then (false, cs')
          else if bool_decide (c = "-"%char) then (true, cs')
          else (false, cs)
      | [] => (false, cs)
      end in
    let '(m1, n1, rest) := read_digits body 0 0 in
    let '(m, n2, rest) :=
      match rest with
      | c :: rest' =>
          if bool_decide (c = "."%char) then read_digits rest' m1 0 else (m1, 0, rest)
      | [] => (m1, 0, rest)
      end in
    match rest with
    | [] =>
        if (n1 + n2 =? 0)%nat then bad
        else if (m <? 2 ^ 53)%Z && (n2 <=? 22)%nat
        then (exact_float neg m n2, None)
        else (S754_zero false, Some (libError "strconv" "float outside the modelled fragment"))
    | _ :: _ =>
        (S754_zero false, Some (libError "strconv" "float outside the modelled fragment"))
    end.

Definition dquote : string := String (ascii_of_N 34) EmptyString.

(** [strconv.Quote] of printable ASCII text without quote or backslash;
    other text is left as it is: the model says nothing of it. *)
Definition quote (s : string) : string :=
  let plain c := let n := N_of_ascii c in
                 ((32 <=? n) && (n <=? 126) && negb (n =? 34) && negb (n =? 92))%N in
  if forallb plain (list_ascii_of_string s) then dquote +:+ s +:+ dquote else s.

Definition strconvFloat : StrconvFloat :=
  {| float64 := spec_float; float32 := spec_float; to_float32 := round32;
     ParseFloat64 := parseFloat; ParseFloat64_empty := eq_refl;
     Quote := quote |}.

(** ** Requests whose form is already decoded, and writes that succeed *)

Record request : Type := { parse_error : option error; form : url.Values }.

Definition netHTTP : NetHTTP :=
  {| Request := request;
     ParseForm := fun r => (r, parse_error r);
     Form := form;
     write_error := fun _ _ => None |}.

(** ** The encoders on two kinds of Go values: a [bool] and a channel,
    which none of the three encodings supports *)

Inductive goValue : Type := GoBool (b : bool) | GoChan.

Definition bytes_of (s : string) : list Byte.byte :=
  map byte_of_ascii (list_ascii_of_string s).

Definition encoders : Encoders :=
  {| any := goValue;
     json_marshal := fun v =>
       match v with
       | GoBool b => inl (bytes_of (if b then "true" else "false"))
       | GoChan => inr (libError "json" "json: unsupported type: chan int")
       end;
     xml_marshalValue := fun v =>
       match v with
       | GoBool b =>
           ([], bytes_of ("<bool>" +:+ (if b then "true" else "false") +:+ "</bool>"), None)
       | GoChan => ([], [], Some (libError "xml" "xml: unsupported type: chan int"))
       end;
     asn1_Marshal := fun v =>
       match v with
       | GoBool b => inl [Byte.x01; Byte.x01; if b then Byte.xff else Byte.x00]
       | GoChan =>
           inr (libError "asn1" "asn1: structure error: unknown Go type: chan int")
       end |}.

End Model.

(** * The vocabulary of the properties *)

Section Vocabulary.
Context `{Platform} `{StrconvFloat} `{RegexpPkg} `{NetHTTP} `{Encoders}.

(** The three tag values of a field, and the form value under its name. *)
Definition formName_of (fld : Field) : string :=
  reflect.Get (reflect.Tag (fst fld)) inputTagName.
Definition pattern_of (fld : Field) : string :=
  reflect.Get (reflect.Tag (fst fld)) validTagName.
Definition msg_of (fld : Field) : string :=
  reflect.Get (reflect.Tag (fst fld)) validMsgName.
Definition formValue_of (form : url.Values) (fld : Field) : string :=
  url.Get form (formName_of fld).

(** The field with another content. *)
Definition holding (fld : Field) (d : reflect.data) : Field :=
  (fst fld, reflect.store (snd fld) d).

(** The families of kinds, as the cases of [scan] list them: the signed
    integers [int], [int8], [int16], [int32], [int64]; the unsigned
    integers [uint], [uint8], [uint16], [uint32], [uint64]; the floats
    [float32], [float64].  [uintptr] is in none of them: [scan] has no case
    for it. *)
Definition signed_kind (k : reflect.Kind) : bool :=
  match k with
  | reflect.Int | reflect.Int8 | reflect.Int16 | reflect.Int32 | reflect.Int64 => true
  | _ => false
  end.

Definition unsigned_kind (k : reflect.Kind) : bool :=
  match k with
  | reflect.Uint | reflect.Uint8 | reflect.Uint16 | reflect.Uint32 | reflect.Uint64 => true
  | _ => false
  end.

Definition float_kind (k : reflect.Kind) : bool :=
  match k with
  | reflect.Float32 | reflect.Float64 => true
  | _ => false
  end.

Definition numeric_kind (k : reflect.Kind) : bool :=
  signed_kind k || unsigned_kind k || float_kind k.

Definition scalar_kind (k : reflect.Kind) : bool :=
  match k with
  | reflect.String | reflect.Bool => true
  | _ => numeric_kind k
  end.

(** The error of the [strconv] function that [scan] calls for a kind, on the
    text [s]: [ParseBool], [ParseInt], [ParseUint] or [ParseFloat]. *)
Definition strconv_error (k : reflect.Kind) (s : string) : option error :=
  match k with
  | reflect.Bool => snd (strconv.ParseBool s)
  | reflect.Float32 | reflect.Float64 => snd (ParseFloat64 s)
  | _ =>
      if signed_kind k then snd (strconv.ParseInt s 64)
      else if unsigned_kind k then snd (strconv.ParseUint s 64)
      else None
  end.

(** The text parses in the type of a field of kind [k]: as a [bool], as an
    integer of the width of the kind, as a float.  Every text is a string;
    nothing parses in a type that is not scalar. *)
Definition parses_in (k : reflect.Kind) (s : string) : Prop :=
  match k with
  | reflect.String => True
  | reflect.Bool => snd (strconv.ParseBool s) = None
  | reflect.Float32 | reflect.Float64 => snd (ParseFloat64 s) = None
  | _ =>
      if signed_kind k then snd (strconv.ParseInt s (reflect.bits k)) = None
      else if unsigned_kind k then snd (strconv.ParseUint s (reflect.bits k)) = None
      else False
  end.

(** The parsed value, in the words of the specification: the raw string,
    [strconv.ParseBool] of it, [strconv.ParseInt] base 10 of it,
    [strconv.ParseUint] of it, [strconv.ParseFloat] of it (as a [float32]
    in a [float32] field). *)
Definition parsed_value (k : reflect.Kind) (s : string) : option reflect.data :=
  match k with
  | reflect.String => Some (reflect.VString s)
  | reflect.Bool => Some (reflect.VBool (fst (strconv.ParseBool s)))
  | reflect.Float64 => Some (reflect.VFloat64 (fst (ParseFloat64 s)))
  | reflect.Float32 => Some (reflect.VFloat32 (to_float32 (fst (ParseFloat64 s))))
  | _ =>
      if signed_kind k then Some (reflect.VInt (fst (strconv.ParseInt s 64)))
      else if unsigned_kind k then Some (reflect.VUint (fst (strconv.ParseUint s 64)))
      else None
  end.

(** What [scan] stores in a settable field of kind [k] for a text that
    [strconv] accepts: the parsed value, through the setter of the kind. *)
Definition scanned_value (k : reflect.Kind) (s : string) : option reflect.data :=
  match k with
  | reflect.String => Some (reflect.VString s)
  | reflect.Bool => Some (reflect.VBool (fst (strconv.ParseBool s)))
  | reflect.Float64 => Some (reflect.VFloat64 (fst (ParseFloat64 s)))
  | reflect.Float32 => Some (reflect.VFloat32 (to_float32 (fst (ParseFloat64 s))))
  | _ =>
      if signed_kind k
      then Some (reflect.VInt
                   (reflect.wrap_signed (reflect.bits k) (fst (strconv.ParseInt s 64))))
      else if unsigned_kind k
      then Some (reflect.VUint
                   (reflect.wrap_unsigned (reflect.bits k) (fst (strconv.ParseUint s 64))))
      else None
  end.

(** The text matches the pattern of a [valid] tag, when one is declared. *)
Definition matches_pattern (validate s : string) : Prop :=
  validate = "" \/ exists rxp, Compile validate = inl rxp /\ MatchString rxp s = true.

(** The pattern is valid and the text has no match for it. *)
Definition fails_to_match (validate s : string) : Prop :=
  exists rxp, Compile validate = inl rxp /\ MatchString rxp s = false.

(** The pattern is invalid: [regexp.Compile] reports [err]. *)
Definition invalid_pattern (validate : string) (err : error) : Prop :=
  Compile validate = inr err.

(** Every field before index [i] passes its validation and its coercion. *)
Definition earlier_fields_pass (form : url.Values) (input : StructValue) (i : nat) : Prop :=
  forall j fld, (j < i)%nat -> input !! j = Some fld ->
    exists fld', parseValidForm_body form fld = Some (fld', None).

(** [(e error) Error() string], the message of an error. *)
Definition numErr_message (e : numErr) : string :=
  match e with
  | ErrSyntax => "invalid syntax"
  | ErrRange => "value out of range"
  | ErrBitSize b => "invalid bit size " +:+ NilZero.string_of_int (Z.to_int b)
  end.

Definition Error (e : error) : string :=
  match e with
  | errorString s => s
  | NumError fn num err =>
      "strconv." +:+ fn +:+ ": parsing " +:+ Quote num +:+ ": " +:+ numErr_message err
  | regexpError code expr => "error parsing regexp: " +:+ code +:+ ": `" +:+ expr +:+ "`"
  | libError _ msg => msg
  end.

(** The fields from the first of [fields] on, one after the other: what
    the loop of [parseValidForm] computes, by recursion on the fields. *)
Fixpoint bind_fields (form : url.Values) (fields : list Field)
  : option (list Field * option error) :=
  match fields with
  | [] => Some ([], None)
  | fld :: rest =>
      '(fld', err) ← parseValidForm_body form fld;
      match err with
      | Some e => Some (fld' :: rest, Some e)
      | None => '(rest', err) ← bind_fields form rest; Some (fld' :: rest', err)
      end
  end.

(** The field after the call, next to the field before it: it keeps its
    name, tag, kind and settability; a settable field holds the parsed
    value, a field that cannot be set is as it was. *)
Definition bound_to (form : url.Values) (fld fld' : Field) : Prop :=
  fst fld' = fst fld
  /\ reflect.Kind_of (snd fld') = reflect.Kind_of (snd fld)
  /\ reflect.CanSet (snd fld') = reflect.CanSet (snd fld)
  /\ if reflect.CanSet (snd fld)
     then Some (reflect.held (snd fld')) =
            parsed_value (reflect.Kind_of (snd fld)) (formValue_of form fld)
     else fld' = fld.

(** The name of the [strconv] function that [scan] calls for a kind. *)
Definition strconv_function (k : reflect.Kind) : string :=
  match k with
  | reflect.Bool => strconv.fnParseBool
  | reflect.Float32 | reflect.Float64 => strconv.fnParseFloat
  | _ => if signed_kind k then strconv.fnParseInt else strconv.fnParseUint
  end.

(** ** Integers: the 64-bit parse, the conversion of the setter, the range
    of a kind *)

Definition integer_kind (k : reflect.Kind) : bool := signed_kind k || unsigned_kind k.

Definition parse64 (k : reflect.Kind) (s : string) : Z * option error :=
  if signed_kind k then strconv.ParseInt s 64 else strconv.ParseUint s 64.

Definition convert (k : reflect.Kind) (x : Z) : Z :=
  if signed_kind k then reflect.wrap_signed (reflect.bits k) x
  else reflect.wrap_unsigned (reflect.bits k) x.

Definition integer_data (k : reflect.Kind) (x : Z) : reflect.data :=
  if signed_kind k then reflect.VInt x else reflect.VUint x.

Definition in_range (k : reflect.Kind) (x : Z) : Prop :=
  if signed_kind k
  then (- 2 ^ (reflect.bits k - 1) <= x < 2 ^ (reflect.bits k - 1))%Z
  else (0 <= x < 2 ^ reflect.bits k)%Z.

(** ** The response writer after a call, next to the writer before it:
    the header is added, then come the writes of body bytes, and nothing
    else *)

Definition header_then_body (mime : string) (ws : list (list Byte.byte))
    (before after : http.ResponseWriter) : Prop :=
  http.log after =
    http.log before ++ http.EvHeaderAdd contentType mime :: map http.EvWrite ws
  /\ http.header after !! contentType =
       Some (default [] (http.header before !! contentType) ++ [mime]).

(** The form values of the fields agree in two forms. *)
Definition same_values (form form' : url.Values) (fields : list Field) : Prop :=
  forall fld, fld ∈ fields -> formValue_of form' fld = formValue_of form fld.

(** ** The vocabulary of the further properties *)

(** Two fields of one declaration: the same name and tag, the same kind,
    the same settability; what they hold may differ. *)
Definition same_shape (fld fld' : Field) : Prop :=
  fst fld' = fst fld
  /\ reflect.Kind_of (snd fld') = reflect.Kind_of (snd fld)
  /\ reflect.CanSet (snd fld') = reflect.CanSet (snd fld).

(** The field after a step that passes: a settable field of a kind [scan]
    has a case for holds the value parsed from its form value, stored by
    the setter of its kind; any other field is as it was. *)
Definition stepped (form : url.Values) (fld : Field) : Field :=
  if reflect.CanSet (snd fld)
  then match scanned_value (reflect.Kind_of (snd fld)) (formValue_of form fld) with
       | Some d => holding fld d
       | None => fld
       end
  else fld.

(** The step of the loop for a field succeeds and leaves [fld']. *)
Definition step_passes (form : url.Values) (fld fld' : Field) : Prop :=
  parseValidForm_body form fld = Some (fld', None).

(** The kinds whose case in [scan] can fail: [bool], [int] to [int64],
    [uint] to [uint64], [float32] and [float64]. *)
Definition parsed_kind (k : reflect.Kind) : Prop :=
  k = reflect.Bool \/ numeric_kind k = true.

(** A field holds a value of its kind: a string in a string field, an
    integer of the range of the kind in an integer field, and so on.
    Nothing is asked of the kinds [scan] has no case for. *)
Definition holds_its_kind (v : Value) : Prop :=
  let k := reflect.Kind_of v in
  match k with
  | reflect.String => exists s, reflect.held v = reflect.VString s
  | reflect.Bool => exists b, reflect.held v = reflect.VBool b
  | reflect.Float32 => exists f, reflect.held v = reflect.VFloat32 f
  | reflect.Float64 => exists f, reflect.held v = reflect.VFloat64 f
  | _ =>
      if integer_kind k
      then exists x, reflect.held v = integer_data k x /\ in_range k x
      else True
  end.

(** What [parseValidForm] leaves in a field it cannot fail on: the form
    value in a settable string field, the field as it was otherwise. *)
Definition string_bound (form : url.Values) (fld : Field) : Field :=
  if reflect.CanSet (snd fld) && bool_decide (reflect.Kind_of (snd fld) = reflect.String)
  then holding fld (reflect.VString (formValue_of form fld))
  else fld.

(** [c.Head(k, v)] for each pair of a list, in order. *)
Definition Heads (c : Context) (kvs : list (string * string)) : Context :=
  foldl (fun c kv => Head c (fst kv) (snd kv)) c kvs.

(** The values added by a list of [Head] calls under the keys whose
    canonical form is [key], in call order. *)
Definition added_under (key : string) (kvs : list (string * string)) : list string :=
  snd <$> filter (fun kv => textproto.CanonicalMIMEHeaderKey (fst kv) = key) kvs.

End Vocabulary.

(** * Four claims as the specification states them

    The code does not meet them in this form; each is proved false on an
    example below, and proved in an amended form. *)

Section AsStated.
Context `{Platform} `{StrconvFloat} `{RegexpPkg} `{NetHTTP} `{Encoders}.

(** C1 as stated: after a call on a form that fits, every field, settable
    or not, equals the parsed value. *)
Definition binds_every_field : Prop :=
  forall (input : StructValue) (form : url.Values),
    (forall fld, fld ∈ input -> reflect.CanSet (snd fld) = true ->
       scalar_kind (reflect.Kind_of (snd fld)) = true) ->
    (forall fld, fld ∈ input ->
       parses_in (reflect.Kind_of (snd fld)) (formValue_of form fld)
       /\ matches_pattern (pattern_of fld) (formValue_of form fld)) ->
    exists output,
      parseValidForm input form = Some (output, None)
      /\ Forall2 (fun fld fld' =>
                    Some (reflect.held (snd fld')) =
                      parsed_value (reflect.Kind_of (snd fld)) (formValue_of form fld))
           input output.

(** C2 as stated: an invalid pattern, like a failed match, makes the call
    return an error whose message is the [msg] of the tag. *)
Definition validation_error_is_msg : Prop :=
  forall (input : StructValue) (form : url.Values) (i : nat) (fld : Field),
    input !! i = Some fld ->
    pattern_of fld <> "" ->
    ((exists err, invalid_pattern (pattern_of fld) err)
     \/ fails_to_match (pattern_of fld) (formValue_of form fld)) ->
    exists output e,
      parseValidForm input form = Some (output, Some e)
      /\ Error e = msg_of fld.

(** C3 as stated: the parse error of any settable numeric field that
    passes its validation is what the call returns. *)
Definition parse_error_of_any_field : Prop :=
  forall (input : StructValue) (form : url.Values) (i : nat) (fld : Field) (e : error),
    input !! i = Some fld ->
    reflect.CanSet (snd fld) = true ->
    numeric_kind (reflect.Kind_of (snd fld)) = true ->
    matches_pattern (pattern_of fld) (formValue_of form fld) ->
    strconv_error (reflect.Kind_of (snd fld)) (formValue_of form fld) = Some e ->
    exists output, parseValidForm input form = Some (output, Some e).

(** An error of [strconv]. *)
Definition is_parse_error (e : error) : Prop :=
  exists fn num err, e = NumError fn num err.

(** C8 as stated, for a settable field whose form parameter is absent and
    whose pattern the empty string passes: a string field is bound to the
    empty string by its step of the loop; any [bool] or numeric field makes
    the call return a parse error. *)
Definition absent_parameter_any_field : Prop :=
  forall (input : StructValue) (form : url.Values) (i : nat) (fld : Field),
    input !! i = Some fld ->
    form !! formName_of fld = None ->
    reflect.CanSet (snd fld) = true ->
    matches_pattern (pattern_of fld) "" ->
    (reflect.Kind_of (snd fld) = reflect.String ->
       parseValidForm_body form fld = Some (holding fld (reflect.VString ""), None))
    /\ (reflect.Kind_of (snd fld) = reflect.Bool
        \/ numeric_kind (reflect.Kind_of (snd fld)) = true ->
        exists output e,
          parseValidForm input form = Some (output, Some e) /\ is_parse_error e).

End AsStated.

(** * Structs and forms to run the code on *)

Module Examples.
Import Model.

#[local] Existing Instance amd64.
#[local] Existing Instance strconvFloat.
#[local] Existing Instance regexp.
#[local] Existing Instance netHTTP.
#[local] Existing Instance encoders.

Definition field (name : string) (tag : reflect.StructTag) (k : reflect.Kind)
    (exported : bool) (d : reflect.data) : Field :=
  ({| reflect.Name := name; reflect.Tag := tag |},
   {| reflect.Kind_of := k; reflect.CanSet := exported; reflect.held := d |}).

Definition form_of (l : list (string * list string)) : url.Values := list_to_map l.

(** [struct { name string `form:"name"` }], the field not exported. *)
Definition private_name : StructValue :=
  [field "name" [("form", "name")] reflect.String false (reflect.VString "")].

Definition name_bob : url.Values := form_of [("name", ["bob"])].

(** A sign-up form with a field of every family, and an unexported field. *)
Definition signup : StructValue :=
  [field "Name" [("form", "name"); ("valid", "^[a-z]+$"); ("msg", "bad name")]
     reflect.String true (reflect.VString "");
   field "Age" [("form", "age"); ("valid", "^[0-9]+$"); ("msg", "bad age")]
     reflect.Uint8 true (reflect.VUint 0);
   field "Admin" [("form", "admin")] reflect.Bool true (reflect.VBool false);
   field "Score" [("form", "score")] reflect.Float64 true (reflect.VFloat64 (S754_zero false));
   field "Balance" [("form", "balance")] reflect.Int32 true (reflect.VInt 0);
   field "seen" [] reflect.Struct false (reflect.VOther "time.Time{}")].

Definition signup_form : url.Values :=
  form_of [("name", ["bob"]); ("age", ["42"]); ("admin", ["true"]);
           ("score", ["1.5"]); ("balance", ["-7"])].

Definition signup_bound : StructValue :=
  [field "Name" [("form", "name"); ("valid", "^[a-z]+$"); ("msg", "bad name")]
     reflect.String true (reflect.VString "bob");
   field "Age" [("form", "age"); ("valid", "^[0-9]+$"); ("msg", "bad age")]
     reflect.Uint8 true (reflect.VUint 42);
   field "Admin" [("form", "admin")] reflect.Bool true (reflect.VBool true);
   field "Score" [("form", "score")] reflect.Float64 true
     (reflect.VFloat64 (S754_finite false 6755399441055744 (-52)));
   field "Balance" [("form", "balance")] reflect.Int32 true (reflect.VInt (-7));
   field "seen" [] reflect.Struct false (reflect.VOther "time.Time{}")].

(** A pattern that does not compile. *)
Definition bad_pattern : StructValue :=
  [field "Name" [("form", "name"); ("valid", "("); ("msg", "bad name")]
     reflect.String true (reflect.VString "")].

(** A name that must be lower case, then an age. *)
Definition name_age : StructValue :=
  [field "Name" [("form", "name"); ("valid", "^[a-z]+$"); ("msg", "bad name")]
     reflect.String true (reflect.VString "");
   field "Age" [("form", "age")] reflect.Int true (reflect.VInt 0)].

Definition bad_name_bad_age : url.Values :=
  form_of [("name", ["Bob1"]); ("age", ["old"])].
Definition good_name_bad_age : url.Values :=
  form_of [("name", ["bob"]); ("age", ["old"])].
Definition bad_name_no_age : url.Values := form_of [("name", ["Bob1"])].
Definition good_name_no_age : url.Values := form_of [("name", ["bob"])].

(** An unexported field with a pattern. *)
Definition private_code : StructValue :=
  [field "Name" [("form", "name")] reflect.String true (reflect.VString "");
   field "code" [("form", "code"); ("valid", "^[0-9]+$"); ("msg", "bad code")]
     reflect.Int false (reflect.VInt 7)].

Definition name_and_code : url.Values := form_of [("name", ["bob"]); ("code", ["x1"])].

(** The sign-up form with an age that is no number and a flag that is no
    [bool]. *)
Definition signup_bad_age : url.Values :=
  form_of [("name", ["bob"]); ("age", ["4x2"]); ("admin", ["maybe"])].

(** The same with other values for the fields after the age. *)
Definition signup_bad_age' : url.Values :=
  form_of [("name", ["bob"]); ("age", ["4x2"]); ("admin", ["1"]); ("score", ["x"])].

(** An [int8] field. *)
Definition level : Value :=
  {| reflect.Kind_of := reflect.Int8; reflect.CanSet := true; reflect.held := reflect.VInt 0 |}.

(** A request whose body does not parse, and one that carries a form. *)
Definition broken_request : request :=
  {| parse_error := Some (libError "url" "invalid semicolon separator in query");
     form := ∅ |}.

Definition fresh_writer : http.ResponseWriter := {| http.header := ∅; http.log := [] |}.

Definition broken_context : Context :=
  {| req := broken_request; rw := fresh_writer |}.

Definition request_with (f : url.Values) : request :=
  {| parse_error := None; form := f |}.

Definition context_with (f : url.Values) : Context :=
  {| req := request_with f; rw := fresh_writer |}.

(** The sign-up form with a second age and a parameter no field names. *)
Definition signup_form_more : url.Values :=
  form_of [("name", ["bob"]); ("age", ["42"; "99"]); ("admin", ["true"]);
           ("score", ["1.5"]); ("balance", ["-7"]); ("page", ["3"])].

(** [struct { Title string; Handle uintptr; Tags []string; count int }],
    without patterns. *)
Definition lenient : StructValue :=
  [field "Title" [("form", "title")] reflect.String true (reflect.VString "old");
   field "Handle" [("form", "handle")] reflect.Uintptr true (reflect.VUint 5);
   field "Tags" [("form", "tags")] reflect.Slice true (reflect.VOther "[]string(nil)");
   field "count" [("form", "count")] reflect.Int false (reflect.VInt 1)].

Definition lenient_form : url.Values :=
  form_of [("handle", ["9"]); ("tags", ["a"; "b"]); ("count", ["x"])].

End Examples.

(** * Properties *)

(** ** [strconv]: a text that parses at a width parses alike at 64 bits *)

Section StrconvFacts.
Context `{Platform}.
Local Open Scope Z_scope.

Lemma IntSize_range : 0 < IntSize <= 64.
Proof. destruct IntSize_32_or_64 as [-> | ->]; lia. Qed.

Lemma digit10_range c d : strconv.digit10 c = Some d -> 0 <= d <= 9.
Proof.
  unfold strconv.digit10. intros Hd.
  destruct (_ && _) eqn:E; [|discriminate]. simplify_eq. lia.
Qed.

(** On success the result of the loop is bounded by [maxVal]; a loop with
    the bound of 64 bits reads the same digits to the same number. *)
Lemma parseUint_loop_narrow s0 s0' maxVal cs n x :
  0 <= n <= maxVal -> maxVal <= strconv.maxUint64 ->
  strconv.parseUint_loop s0 maxVal cs n = (x, None) ->
  strconv.parseUint_loop s0' strconv.maxUint64 cs n = (x, None) /\ 0 <= x <= maxVal.
Proof.
  revert n. induction cs as [|c cs IH]; intros n Hn Hmax; simpl.
  - intros [= <-]. split; [done|lia].
  - destruct (strconv.digit10 c) as [d|] eqn:Hd; [|discriminate].
    apply digit10_range in Hd.
    destruct (strconv.cutoff10 <=? n) eqn:Hcut; [discriminate|].
    set (n10 := (n * 10) mod 2 ^ 64). set (n1 := (n10 + d) mod 2 ^ 64).
    destruct ((n1 <? n10) || (maxVal <? n1)) eqn:Hov; [discriminate|].
    apply orb_false_iff in Hov as [Hlt Hgt].
    assert (0 <= n1 < 2 ^ 64) by (apply Z.mod_pos_bound; lia).
    assert (0 <= n10) by (apply Z.mod_pos_bound; lia).
    replace ((n1 <? n10) || (strconv.maxUint64 <? n1)) with false.
    + apply IH; [|done]. lia.
    + symmetry. apply orb_false_iff. split; [done|].
      unfold strconv.maxUint64. lia.
Qed.

(** A range error of the loop comes with [maxVal]. *)
Lemma parseUint_loop_range s0 maxVal cs n x fn num :
  strconv.parseUint_loop s0 maxVal cs n = (x, Some (NumError fn num ErrRange)) ->
  x = maxVal.
Proof.
  revert n. induction cs as [|c cs IH]; intros n; simpl; [discriminate|].
  destruct (strconv.digit10 c) as [d|]; [|discriminate].
  destruct (strconv.cutoff10 <=? n); [by intros [= <-]|].
  destruct (_ || _); [by intros [= <-]|]. apply IH.
Qed.

Lemma ParseUint_narrow s w x :
  0 < w <= 64 ->
  strconv.ParseUint s w = (x, None) ->
  strconv.ParseUint s 64 = (x, None) /\ 0 <= x < 2 ^ w.
Proof.
  intros Hw. unfold strconv.ParseUint.
  case_bool_decide; [discriminate|].
  replace ((w <? 0) || (64 <? w)) with false by (symmetry; apply orb_false_iff; lia).
  replace (w =? 0) with false by lia. cbn [orb Z.ltb Z.eqb Z.compare].
  assert (2 ^ w <= 2 ^ 64) by (apply Z.pow_le_mono_r; lia).
  assert (0 < 2 ^ w) by (apply Z.pow_pos_nonneg; lia).
  intros Hloop. rewrite Z.mod_small in Hloop by lia.
  apply (parseUint_loop_narrow _ s) in Hloop as [Hloop ?];
    [|lia|unfold strconv.maxUint64; lia].
  split; [|lia]. exact Hloop.
Qed.

Lemma ParseUint_range s w x fn num :
  0 < w <= 64 ->
  strconv.ParseUint s w = (x, Some (NumError fn num ErrRange)) ->
  x = 2 ^ w - 1.
Proof.
  intros Hw. unfold strconv.ParseUint.
  case_bool_decide; [discriminate|].
  replace ((w <? 0) || (64 <? w)) with false by (symmetry; apply orb_false_iff; lia).
  replace (w =? 0) with false by lia.
  assert (2 ^ w <= 2 ^ 64) by (apply Z.pow_le_mono_r; lia).
  assert (0 < 2 ^ w) by (apply Z.pow_pos_nonneg; lia).
  rewrite Z.mod_small by lia. apply parseUint_loop_range.
Qed.

Lemma ParseInt_narrow s w x :
  1 < w <= 64 ->
  strconv.ParseInt s w = (x, None) ->
  strconv.ParseInt s 64 = (x, None) /\ - 2 ^ (w - 1) <= x < 2 ^ (w - 1).
Proof.
  intros Hw. unfold strconv.ParseInt.
  destruct s as [|c rest]; [discriminate|].
  set (sign := if bool_decide (c = "+"%char) then (false, rest)
               else if bool_decide (c = "-"%char) then (true, rest)
               else (false, String c rest)).
  destruct sign as [neg body].
  replace (w =? 0) with false by lia.
  assert (Hpow : 2 ^ (w - 1) <= 2 ^ 63) by (apply Z.pow_le_mono_r; lia).
  assert (2 ^ 1 <= 2 ^ (w - 1)) by (apply Z.pow_le_mono_r; lia).
  assert (Hdbl : 2 ^ w = 2 * 2 ^ (w - 1)).
  { rewrite <- Z.pow_succ_r by lia. f_equal. lia. }
  rewrite (Z.mod_small (2 ^ (w - 1))) by lia.
  destruct (strconv.ParseUint body w) as [un err] eqn:Hun.
  destruct err as [e|].
  - (* only a range error goes on, and it fails the range check *)
    destruct e as [| fn num [| |b] | |]; try discriminate.
    apply ParseUint_range in Hun; [|lia]. subst un.
    destruct neg; cbn [negb andb].
    + replace (2 ^ (w - 1) <? 2 ^ w - 1) with true by lia. discriminate.
    + replace (2 ^ (w - 1) <=? 2 ^ w - 1) with true by lia. discriminate.
  - apply ParseUint_narrow in Hun as [-> Hx]; [|lia].
    change (if 64 =? 0 then IntSize else 64) with 64.
    change (2 ^ (64 - 1) mod 2 ^ 64) with (2 ^ 63).
    destruct neg; cbn [negb andb].
    + destruct (2 ^ (w - 1) <? un) eqn:E; [discriminate|]. intros [= <-].
      replace (2 ^ 63 <? un) with false by lia. split; [done|lia].
    + destruct (2 ^ (w - 1) <=? un) eqn:E; [discriminate|]. intros [= <-].
      replace (2 ^ 63 <=? un) with false by lia. split; [done|lia].
Qed.

Lemma wrap_signed_id w x :
  0 < w -> - 2 ^ (w - 1) <= x < 2 ^ (w - 1) -> reflect.wrap_signed w x = x.
Proof.
  intros Hw Hx. unfold reflect.wrap_signed.
  assert (Hdbl : 2 ^ w = 2 * 2 ^ (w - 1)).
  { rewrite <- Z.pow_succ_r by lia. f_equal. lia. }
  destruct (Z.neg_nonneg_cases x).
  - replace (x mod 2 ^ w) with (x + 2 ^ w).
    + replace (x + 2 ^ w <? 2 ^ (w - 1)) with false by lia. lia.
    + apply Z.mod_unique with (q := -1); lia.
  - rewrite Z.mod_small by lia. replace (x <? 2 ^ (w - 1)) with true by lia. done.
Qed.

Lemma wrap_unsigned_id w x : 0 <= x < 2 ^ w -> reflect.wrap_unsigned w x = x.
Proof. intros Hx. unfold reflect.wrap_unsigned. by apply Z.mod_small. Qed.

(** What [intN(x)] is: the one number of the signed range of [w] bits that
    is congruent to [x] modulo [2^w]. *)
Lemma wrap_signed_spec w x :
  0 < w ->
  - 2 ^ (w - 1) <= reflect.wrap_signed w x < 2 ^ (w - 1)
  /\ reflect.wrap_signed w x mod 2 ^ w = x mod 2 ^ w.
Proof.
  intros Hw. unfold reflect.wrap_signed.
  assert (Hdbl : 2 ^ w = 2 * 2 ^ (w - 1)).
  { rewrite <- Z.pow_succ_r by lia. f_equal. lia. }
  assert (0 < 2 ^ (w - 1)) by (apply Z.pow_pos_nonneg; lia).
  pose proof (Z.mod_pos_bound x (2 ^ w)) as Hm.
  destruct (x mod 2 ^ w <? 2 ^ (w - 1)) eqn:E.
  - split; [lia|]. apply Z.mod_mod. lia.
  - split; [lia|].
    rewrite <- (Z.mod_mod x (2 ^ w)) at 2 by lia.
    replace (x mod 2 ^ w - 2 ^ w) with (x mod 2 ^ w + (-1) * 2 ^ w) by lia.
    apply Z.mod_add. lia.
Qed.

Lemma wrap_unsigned_spec w x :
  0 < w ->
  0 <= reflect.wrap_unsigned w x < 2 ^ w
  /\ reflect.wrap_unsigned w x mod 2 ^ w = x mod 2 ^ w.
Proof.
  intros Hw. unfold reflect.wrap_unsigned.
  assert (0 < 2 ^ w) by (apply Z.pow_pos_nonneg; lia).
  split; [by apply Z.mod_pos_bound|]. apply Z.mod_mod. lia.
Qed.

End StrconvFacts.

(** ** [scan], field by field *)

Section ScanFacts.
Context `{Platform} `{StrconvFloat} `{RegexpPkg} `{NetHTTP} `{Encoders}.

(** A field that cannot be set is left alone, whatever the text. *)
Lemma scan_unsettable (v : Value) (s : string) :
  reflect.CanSet v = false -> scan v s = Some (v, None).
Proof. intros Hset. unfold scan. by rewrite Hset. Qed.

Ltac scan_cases v Hset :=
  destruct v as [k cs d]; cbn [reflect.CanSet reflect.Kind_of] in *; subst cs;
  unfold scan, strconv_error, scanned_value,
    reflect.SetString, reflect.SetBool, reflect.SetInt, reflect.SetUint,
    reflect.SetFloat, reflect.store;
  cbn [reflect.CanSet reflect.Kind_of reflect.held negb];
  destruct k; cbn.

Ltac parse_cases :=
  match goal with
  | |- context [strconv.ParseBool ?x] => destruct (strconv.ParseBool x) as [? [?|]]
  | |- context [strconv.ParseInt ?x 64] => destruct (strconv.ParseInt x 64) as [? [?|]]
  | |- context [strconv.ParseUint ?x 64] => destruct (strconv.ParseUint x 64) as [? [?|]]
  | |- context [ParseFloat64 ?x] => destruct (ParseFloat64 x) as [? [?|]]
  end.

(** A settable field whose text [strconv] accepts is set to the value
    parsed; a field of a kind [scan] has no case for is left alone. *)
Lemma scan_settable_ok (v : Value) (s : string) :
  reflect.CanSet v = true ->
  strconv_error (reflect.Kind_of v) s = None ->
  scan v s = Some (match scanned_value (reflect.Kind_of v) s with
                   | Some d => reflect.store v d
                   | None => v
                   end, None).
Proof.
  intros Hset. scan_cases v Hset; try done.
  all: parse_cases; cbn; done.
Qed.

(** A settable field whose text [strconv] refuses is left as it was, and
    the error of [strconv] is the error of [scan]. *)
Lemma scan_settable_err (v : Value) (s : string) (e : error) :
  reflect.CanSet v = true ->
  strconv_error (reflect.Kind_of v) s = Some e ->
  scan v s = Some (v, Some e).
Proof.
  intros Hset. scan_cases v Hset; try done.
  all: parse_cases; cbn; intros; by simplify_eq.
Qed.

(** [scan] never panics: the setter it calls is the one of the kind. *)
Lemma scan_total (v : Value) (s : string) :
  exists v' r, scan v s = Some (v', r).
Proof.
  destruct (reflect.CanSet v) eqn:Hset; [|by rewrite scan_unsettable; eauto].
  destruct (strconv_error (reflect.Kind_of v) s) as [e|] eqn:He.
  - rewrite (scan_settable_err _ _ e) by done. eauto.
  - rewrite scan_settable_ok by done. eauto.
Qed.

(** A failed [scan] has set nothing. *)
Lemma scan_error_unchanged (v v' : Value) (s : string) (e : error) :
  scan v s = Some (v', Some e) -> v' = v.
Proof.
  destruct (reflect.CanSet v) eqn:Hset; [|rewrite scan_unsettable by done; congruence].
  destruct (strconv_error (reflect.Kind_of v) s) as [e'|] eqn:He.
  - rewrite (scan_settable_err _ _ e') by done. congruence.
  - rewrite scan_settable_ok by done. congruence.
Qed.

(** [scan] changes what a field holds, not its kind nor whether it can be
    set. *)
Lemma scan_same_field (v v' : Value) (s : string) r :
  scan v s = Some (v', r) ->
  reflect.Kind_of v' = reflect.Kind_of v /\ reflect.CanSet v' = reflect.CanSet v.
Proof.
  destruct (reflect.CanSet v) eqn:Hset; [|rewrite scan_unsettable by done; by intros [= <- <-]].
  destruct (strconv_error (reflect.Kind_of v) s) as [e'|] eqn:He.
  - rewrite (scan_settable_err _ _ e') by done. by intros [= <- <-].
  - rewrite scan_settable_ok by done. intros [= <- <-].
    by destruct (scanned_value _ _).
Qed.

End ScanFacts.

(** ** [valid] and the body of the loop *)

Section FormFacts.
Context `{Platform} `{StrconvFloat} `{RegexpPkg} `{NetHTTP} `{Encoders}.
Implicit Types (form : url.Values) (fld : Field) (input : StructValue).

Lemma valid_no_pattern (s msg : string) : valid s "" msg = None.
Proof. done. Qed.

Lemma valid_matches (s validate msg : string) :
  matches_pattern validate s <-> valid s validate msg = None.
Proof.
  unfold matches_pattern, valid. case_bool_decide as Hv; [by split; [|left]|].
  destruct (Compile validate) as [rxp|err].
  - destruct (MatchString rxp s) eqn:Hm; cbn.
    + split; [done|]. right. eauto.
    + split; [|done]. intros [?|(r & [= <-] & ?)]; congruence.
  - split; [|done]. intros [?|(r & ? & _)]; congruence.
Qed.

Lemma valid_fails_to_match (s validate msg : string) :
  validate <> "" -> fails_to_match validate s ->
  valid s validate msg = Some (errors.New msg).
Proof.
  intros Hv (rxp & Hc & Hm). unfold valid.
  rewrite bool_decide_eq_false_2 by done. by rewrite Hc, Hm.
Qed.

Lemma valid_invalid_pattern (s validate msg : string) (err : error) :
  validate <> "" -> invalid_pattern validate err ->
  valid s validate msg = Some err.
Proof.
  intros Hv Hc. unfold valid.
  rewrite bool_decide_eq_false_2 by done. by rewrite Hc.
Qed.

(** The body of the loop, by the outcome of the validation. *)
Lemma body_valid_error form fld (e : error) :
  valid (formValue_of form fld) (pattern_of fld) (msg_of fld) = Some e ->
  parseValidForm_body form fld = Some (fld, Some e).
Proof.
  intros Hv. unfold parseValidForm_body.
  fold (formName_of fld) (pattern_of fld) (msg_of fld).
  fold (formValue_of form fld). by rewrite Hv.
Qed.

Lemma body_valid_ok form fld :
  valid (formValue_of form fld) (pattern_of fld) (msg_of fld) = None ->
  parseValidForm_body form fld =
    '(v', r) ← scan (snd fld) (formValue_of form fld); Some ((fst fld, v'), r).
Proof.
  intros Hv. unfold parseValidForm_body.
  fold (formName_of fld) (pattern_of fld) (msg_of fld).
  fold (formValue_of form fld). by rewrite Hv.
Qed.

(** The body never panics. *)
Lemma body_total form fld :
  exists fld' r, parseValidForm_body form fld = Some (fld', r).
Proof.
  destruct (valid (formValue_of form fld) (pattern_of fld) (msg_of fld)) as [e|] eqn:Hv.
  - rewrite (body_valid_error _ _ e) by done. eauto.
  - rewrite body_valid_ok by done.
    destruct (scan_total (snd fld) (formValue_of form fld)) as (v' & r & ->).
    cbn. eauto.
Qed.

(** A field whose validation or coercion fails is left as it was. *)
Lemma body_error_unchanged form fld fld' (e : error) :
  parseValidForm_body form fld = Some (fld', Some e) -> fld' = fld.
Proof.
  destruct (valid (formValue_of form fld) (pattern_of fld) (msg_of fld)) as [e'|] eqn:Hv.
  - rewrite (body_valid_error _ _ e') by done. congruence.
  - rewrite body_valid_ok by done.
    destruct (scan (snd fld) (formValue_of form fld)) as [[v' r]|] eqn:Hs; [|done].
    cbn. intros [= <- ->]. apply scan_error_unchanged in Hs as ->. by destruct fld.
Qed.

(** The body keeps the name, the tag, the kind and the settability. *)
Lemma body_same_field form fld fld' r :
  parseValidForm_body form fld = Some (fld', r) ->
  fst fld' = fst fld
  /\ reflect.Kind_of (snd fld') = reflect.Kind_of (snd fld)
  /\ reflect.CanSet (snd fld') = reflect.CanSet (snd fld).
Proof.
  destruct (valid (formValue_of form fld) (pattern_of fld) (msg_of fld)) as [e'|] eqn:Hv.
  - rewrite (body_valid_error _ _ e') by done. by intros [= <- <-].
  - rewrite body_valid_ok by done.
    destruct (scan (snd fld) (formValue_of form fld)) as [[v' r']|] eqn:Hs; [|done].
    cbn. intros [= <- <-]. apply scan_same_field in Hs as [? ?]. by cbn.
Qed.

(** ** The loop of [parseValidForm] *)

(** Writing back the field at the index it was read from. *)
Lemma insert_at_length {A : Type} (l1 l2 : list A) (x y : A) :
  <[length l1 := y]> (l1 ++ x :: l2) = l1 ++ y :: l2.
Proof. rewrite insert_app_r_alt by lia. by rewrite Nat.sub_diag. Qed.

(** The loop from index [length done] on the fields [done ++ rest] is the
    recursion on [rest]; the fields before the index are not read. *)
Lemma parseValidForm_loop_bind form (rest done : list Field) :
  parseValidForm_loop form (length rest) (length done) (done ++ rest) =
    '(rest', err) ← bind_fields form rest; Some (done ++ rest', err).
Proof.
  revert done. induction rest as [|fld rest IH]; intros done; cbn.
  - done.
  - rewrite list_lookup_middle by done. cbn.
    destruct (parseValidForm_body form fld) as [[fld' [e|]]|]; cbn; [| |done].
    + by rewrite insert_at_length.
    + rewrite insert_at_length.
      replace (done ++ fld' :: rest) with ((done ++ [fld']) ++ rest)
        by (by rewrite <- app_assoc).
      replace (S (length done)) with (length (done ++ [fld']))
        by (rewrite length_app; cbn; lia).
      rewrite IH. destruct (bind_fields form rest) as [[rest' err]|]; cbn; [|done].
      by rewrite <- app_assoc.
Qed.

Lemma parseValidForm_bind_fields input form :
  parseValidForm input form = bind_fields form input.
Proof.
  unfold parseValidForm, reflect.NumField.
  change (parseValidForm_loop form (length input) 0 input)
    with (parseValidForm_loop form (length input) (length (@nil Field)) ([] ++ input)).
  rewrite parseValidForm_loop_bind. cbn.
  by destruct (bind_fields form input) as [[? ?]|].
Qed.

(** [parseValidForm] never panics on a struct. *)
Lemma bind_fields_total form (fields : list Field) :
  exists out r, bind_fields form fields = Some (out, r).
Proof.
  induction fields as [|fld rest (out & r & IH)]; cbn; [eauto|].
  destruct (body_total form fld) as (fld' & [e|] & ->); cbn; [eauto|].
  rewrite IH. cbn. eauto.
Qed.

(** Fields that all pass are all bound, each by its own step. *)
Lemma bind_fields_pass form (pre pre' : list Field) :
  Forall2 (fun fld fld' => parseValidForm_body form fld = Some (fld', None)) pre pre' ->
  bind_fields form pre = Some (pre', None).
Proof.
  induction 1 as [|fld fld' pre pre' Hb _ IH]; cbn; [done|].
  rewrite Hb. cbn. by rewrite IH.
Qed.

Lemma bind_fields_pass_inv form (fields out : list Field) :
  bind_fields form fields = Some (out, None) ->
  Forall2 (fun fld fld' => parseValidForm_body form fld = Some (fld', None)) fields out.
Proof.
  revert out. induction fields as [|fld rest IH]; intros out; cbn.
  - intros [= <-]. constructor.
  - destruct (parseValidForm_body form fld) as [[fld' [e|]]|] eqn:Hb; cbn; [done| |done].
    destruct (bind_fields form rest) as [[rest' [e|]]|]; cbn; [done| |done].
    intros [= <-]. constructor; [done|]. by apply IH.
Qed.

(** The loop over [pre ++ post] when every field of [pre] passes. *)
Lemma bind_fields_app_pass form (pre pre' post : list Field) :
  Forall2 (fun fld fld' => parseValidForm_body form fld = Some (fld', None)) pre pre' ->
  bind_fields form (pre ++ post) =
    '(post', err) ← bind_fields form post; Some (pre' ++ post', err).
Proof.
  induction 1 as [|fld fld' pre pre' Hb _ IH]; cbn.
  - by destruct (bind_fields form post) as [[? ?]|].
  - rewrite Hb. cbn. rewrite IH.
    by destruct (bind_fields form post) as [[? ?]|].
Qed.

(** The first field that fails ends the loop with its error. *)
Lemma bind_fields_first_error form (pre pre' post : list Field) fld fld' (e : error) :
  Forall2 (fun fld fld' => parseValidForm_body form fld = Some (fld', None)) pre pre' ->
  parseValidForm_body form fld = Some (fld', Some e) ->
  bind_fields form (pre ++ fld :: post) = Some (pre' ++ fld :: post, Some e).
Proof.
  intros Hpre Hb. rewrite (bind_fields_app_pass _ _ pre') by done. cbn.
  rewrite Hb. cbn. by rewrite (body_error_unchanged _ _ _ _ Hb).
Qed.

(** A field that fails makes the loop fail, at that field or before. *)
Lemma bind_fields_fails form (fields : list Field) (i : nat) fld fld' (e : error) :
  fields !! i = Some fld ->
  parseValidForm_body form fld = Some (fld', Some e) ->
  exists out e', bind_fields form fields = Some (out, Some e').
Proof.
  revert i. induction fields as [|f rest IH]; intros i Hi Hb; [done|]. cbn.
  destruct i as [|i]; cbn in Hi.
  - simplify_eq. rewrite Hb. cbn. eauto.
  - destruct (body_total form f) as (f' & [e0|] & ->); cbn; [eauto|].
    destruct (IH i Hi Hb) as (out & e' & ->). cbn. eauto.
Qed.

(** The fields before [i] pass: they are bound one by one. *)
Lemma earlier_fields_bound form input (i : nat) :
  earlier_fields_pass form input i ->
  exists pre',
    Forall2 (fun fld fld' => parseValidForm_body form fld = Some (fld', None))
      (take i input) pre'.
Proof.
  revert i. induction input as [|f rest IH]; intros i Hpass.
  - exists []. rewrite take_nil. constructor.
  - destruct i as [|i]; [exists []; constructor|].
    destruct (Hpass 0%nat f) as (f' & Hf); [lia|done|].
    destruct (IH i) as (pre' & Hpre).
    { intros j fld Hj Hl. apply (Hpass (S j)); [lia|done]. }
    exists (f' :: pre'). cbn. by constructor.
Qed.

(** The error of the loop is the error of the field at [i] when the fields
    before it pass. *)
Lemma parseValidForm_error_at form input (i : nat) fld fld' (e : error) :
  input !! i = Some fld ->
  earlier_fields_pass form input i ->
  parseValidForm_body form fld = Some (fld', Some e) ->
  exists pre',
    Forall2 (fun fld fld' => parseValidForm_body form fld = Some (fld', None))
      (take i input) pre'
    /\ parseValidForm input form = Some (pre' ++ fld :: drop (S i) input, Some e).
Proof.
  intros Hi Hpass Hb. destruct (earlier_fields_bound _ _ _ Hpass) as (pre' & Hpre).
  exists pre'. split; [done|].
  rewrite parseValidForm_bind_fields.
  rewrite <- (take_drop_middle input i fld Hi) at 1.
  by apply (bind_fields_first_error _ _ _ _ _ fld').
Qed.

End FormFacts.

(** ** The claims about [parseValidForm] *)

Section Claims.
Context `{Platform} `{StrconvFloat} `{RegexpPkg} `{NetHTTP} `{Encoders}.
Implicit Types (form : url.Values) (fld : Field) (input : StructValue).
Local Open Scope Z_scope.

Lemma bits_integer_kind (k : reflect.Kind) :
  integer_kind k = true -> 1 < reflect.bits k <= 64.
Proof.
  pose proof IntSize_32_or_64 as Hsz.
  destruct k; try discriminate; cbn; lia.
Qed.

(** A text that parses in the type of a scalar field is accepted by the
    64-bit parse of [scan], and the setter stores the parsed value as it
    is: the conversion to the width of the field changes nothing. *)
Lemma parses_in_scanned (k : reflect.Kind) (s : string) :
  scalar_kind k = true -> parses_in k s ->
  strconv_error k s = None
  /\ scanned_value k s = parsed_value k s
  /\ is_Some (parsed_value k s).
Proof.
  intros Hk Hp.
  destruct (integer_kind k) eqn:Hint.
  - pose proof (bits_integer_kind k Hint) as Hw.
    destruct (signed_kind k) eqn:Hs.
    + assert (snd (strconv.ParseInt s (reflect.bits k)) = None) as Hp'
        by (destruct k; try discriminate; exact Hp).
      destruct (strconv.ParseInt s (reflect.bits k)) as [x e] eqn:Hx.
      cbn in Hp'. subst e. apply ParseInt_narrow in Hx as [Hx Hr]; [|done].
      destruct k; try discriminate; cbn; rewrite Hx; cbn;
        (split; [done|]); (split; [|by eexists]);
        do 2 f_equal; (apply wrap_signed_id; [cbn in Hw; lia | exact Hr]).
    + assert (unsigned_kind k = true) as Hu by (by destruct k).
      assert (snd (strconv.ParseUint s (reflect.bits k)) = None) as Hp'
        by (destruct k; try discriminate; exact Hp).
      destruct (strconv.ParseUint s (reflect.bits k)) as [x e] eqn:Hx.
      cbn in Hp'. subst e. apply ParseUint_narrow in Hx as [Hx Hr]; [|lia].
      destruct k; try discriminate; cbn; rewrite Hx; cbn;
        (split; [done|]); (split; [|by eexists]);
        do 2 f_equal; apply wrap_unsigned_id; exact Hr.
  - destruct k; try discriminate; cbn in *; (split; [done|]); (split; [done|]); by eexists.
Qed.

(** One field of a form that fits: its step of the loop succeeds and
    leaves it bound. *)
Lemma body_binds form fld :
  (reflect.CanSet (snd fld) = true -> scalar_kind (reflect.Kind_of (snd fld)) = true) ->
  matches_pattern (pattern_of fld) (formValue_of form fld) ->
  (reflect.CanSet (snd fld) = true ->
     parses_in (reflect.Kind_of (snd fld)) (formValue_of form fld)) ->
  exists fld', parseValidForm_body form fld = Some (fld', None) /\ bound_to form fld fld'.
Proof.
  intros Hscalar Hvalid Hparses.
  apply (valid_matches _ _ (msg_of fld)) in Hvalid.
  rewrite body_valid_ok by done.
  unfold bound_to. destruct (reflect.CanSet (snd fld)) eqn:Hset.
  - destruct (parses_in_scanned _ _ (Hscalar eq_refl) (Hparses eq_refl))
      as (Herr & Hsame & d & Hd).
    rewrite scan_settable_ok by done. rewrite Hsame, Hd. cbn.
    eexists. split; [done|]. cbn. by rewrite Hset.
  - rewrite scan_unsettable by done. cbn.
    eexists. split; [done|]. by destruct fld.
Qed.

(** C1 (as amended).  For every struct whose settable fields all have a
    scalar kind among those [scan] has a case for ([string], [bool], [int],
    [int8], [int16], [int32], [int64], [uint], [uint8], [uint16], [uint32],
    [uint64], [float32], [float64]; not [uintptr]) and every form in which
    the value of each field matches the pattern of the field when one is
    declared, and the value of each settable field parses in the type of
    the field: [parseValidForm] returns nil and afterwards each settable
    field equals the parsed value (the raw string in a [string] field,
    [ParseBool] of it in a [bool] field, [ParseInt] base 10 of it in an
    [int] to [int64] field, [ParseUint] of it in a [uint] to [uint64]
    field, [ParseFloat] of it in a [float32] or [float64] field, as a
    [float32] in a [float32] field), while each field that cannot be set is
    as it was. *)
Theorem parseValidForm_binds_settable_fields input form :
  (forall fld, fld ∈ input -> reflect.CanSet (snd fld) = true ->
     scalar_kind (reflect.Kind_of (snd fld)) = true) ->
  (forall fld, fld ∈ input ->
     matches_pattern (pattern_of fld) (formValue_of form fld)) ->
  (forall fld, fld ∈ input -> reflect.CanSet (snd fld) = true ->
     parses_in (reflect.Kind_of (snd fld)) (formValue_of form fld)) ->
  exists output,
    parseValidForm input form = Some (output, None)
    /\ Forall2 (bound_to form) input output.
Proof.
  rewrite parseValidForm_bind_fields.
  induction input as [|fld rest IH]; intros Hscalar Hvalid Hparses; cbn.
  - exists []. by split; [|constructor].
  - destruct (body_binds form fld) as (fld' & -> & Hbound).
    + intros. apply Hscalar; [left|done].
    + apply Hvalid. left.
    + intros. apply Hparses; [left|done].
    + destruct IH as (rest' & -> & Hrest).
      * intros. apply Hscalar; [by right|done].
      * intros. apply Hvalid. by right.
      * intros. apply Hparses; [by right|done].
      * cbn. exists (fld' :: rest'). by split; [|constructor].
Qed.

(** The step of a field reads the form at the name of the field only. *)
Lemma body_same_value form form' fld :
  formValue_of form' fld = formValue_of form fld ->
  parseValidForm_body form' fld = parseValidForm_body form fld.
Proof.
  unfold formValue_of, formName_of, parseValidForm_body. cbn zeta.
  by intros ->.
Qed.

Lemma bind_fields_same_values form form' (fields : list Field) :
  same_values form form' fields ->
  bind_fields form' fields = bind_fields form fields.
Proof.
  induction fields as [|fld rest IH]; intros Hsame; cbn; [done|].
  rewrite (body_same_value form form') by (apply Hsame; left).
  rewrite IH; [done|]. intros f Hf. apply Hsame. by right.
Qed.

Lemma pass_same_values form form' (pre pre' : list Field) :
  same_values form form' pre ->
  Forall2 (fun f f' => parseValidForm_body form f = Some (f', None)) pre pre' ->
  Forall2 (fun f f' => parseValidForm_body form' f = Some (f', None)) pre pre'.
Proof.
  intros Hsame Hpre. induction Hpre as [|f f' pre pre' Hf _ IH]; constructor.
  - rewrite (body_same_value form form'); [done|]. apply Hsame. left.
  - apply IH. intros g Hg. apply Hsame. by right.
Qed.

(** C2 (as amended).  For every field whose [valid] tag is not empty: if
    the tag is an invalid pattern, or the form value of the field fails to
    match it, then [parseValidForm], and hence [Context.ParseValidForm],
    returns a non-nil error.  When every earlier field passes, that error
    is [errors.New(msg)], whose message is the [msg] tag of the field, for
    a failed match, and the error of [regexp.Compile] for an invalid
    pattern. *)
Theorem validation_failure_is_reported input form (i : nat) fld :
  input !! i = Some fld ->
  pattern_of fld <> "" ->
  ((exists err, invalid_pattern (pattern_of fld) err)
   \/ fails_to_match (pattern_of fld) (formValue_of form fld)) ->
  exists output e,
    parseValidForm input form = Some (output, Some e)
    /\ (forall (c : Context) r,
          ParseForm (req c) = (r, None) -> Form r = form ->
          ParseValidForm c input = Some ({| req := r; rw := rw c |}, output, Some e))
    /\ (earlier_fields_pass form input i ->
          (fails_to_match (pattern_of fld) (formValue_of form fld) ->
             e = errors.New (msg_of fld) /\ Error e = msg_of fld)
          /\ (forall err, invalid_pattern (pattern_of fld) err -> e = err)).
Proof.
  intros Hi Hpat Hfail.
  assert (exists e0, valid (formValue_of form fld) (pattern_of fld) (msg_of fld) = Some e0)
    as (e0 & Hv).
  { destruct Hfail as [(err & Herr)|Hno].
    - exists err. by apply valid_invalid_pattern.
    - eexists. by apply valid_fails_to_match. }
  pose proof (body_valid_error _ _ _ Hv) as Hb.
  destruct (bind_fields_fails form input i fld fld e0 Hi Hb) as (output & e & Hout).
  rewrite <- parseValidForm_bind_fields in Hout.
  exists output, e. split; [done|]. split.
  - intros c r Hparse Hform. unfold ParseValidForm.
    rewrite Hparse, Hform, Hout. done.
  - intros Hpass.
    destruct (parseValidForm_error_at _ _ _ _ _ _ Hi Hpass Hb) as (pre' & _ & Hout').
    rewrite Hout in Hout'. injection Hout' as _ ->. split.
    + intros Hno. rewrite (valid_fails_to_match _ _ (msg_of fld)) in Hv by done.
      by injection Hv as <-.
    + intros err Herr. rewrite (valid_invalid_pattern _ _ (msg_of fld) err) in Hv by done.
      by injection Hv as <-.
Qed.

(** The step of a settable field whose text [strconv] refuses. *)
Lemma body_parse_error form fld (e : error) :
  reflect.CanSet (snd fld) = true ->
  matches_pattern (pattern_of fld) (formValue_of form fld) ->
  strconv_error (reflect.Kind_of (snd fld)) (formValue_of form fld) = Some e ->
  parseValidForm_body form fld = Some (fld, Some e).
Proof.
  intros Hset Hvalid Herr.
  apply (valid_matches _ _ (msg_of fld)) in Hvalid.
  rewrite body_valid_ok by done.
  rewrite (scan_settable_err _ _ e) by done. cbn. by destruct fld.
Qed.

(** The parse error of the field at [i] is the error of the call when the
    fields before it pass. *)
Lemma parse_error_of_first_failing_field_at input form (i : nat) fld (e : error) :
  input !! i = Some fld ->
  reflect.CanSet (snd fld) = true ->
  matches_pattern (pattern_of fld) (formValue_of form fld) ->
  strconv_error (reflect.Kind_of (snd fld)) (formValue_of form fld) = Some e ->
  earlier_fields_pass form input i ->
  exists output,
    parseValidForm input form = Some (output, Some e) /\ output !! i = Some fld.
Proof.
  intros Hi Hset Hvalid Herr Hpass.
  pose proof (body_parse_error _ _ _ Hset Hvalid Herr) as Hb.
  destruct (parseValidForm_error_at _ _ _ _ _ _ Hi Hpass Hb) as (pre' & Hpre & Hout).
  eexists. split; [exact Hout|].
  apply list_lookup_middle. apply Forall2_length in Hpre. rewrite <- Hpre.
  rewrite length_take. apply lookup_lt_Some in Hi. lia.
Qed.

(** C3 (as amended).  For every settable field of kind [int], [int8],
    [int16], [int32], [int64] (the signed integers), [uint], [uint8],
    [uint16], [uint32], [uint64] (the unsigned integers [scan] has a case
    for; not [uintptr]), [float32] or [float64] (the floats) that passes
    (or has no) regex validation, and that every earlier field lets the
    loop reach: if the form value of the field is not parseable as a number
    of that family, [parseValidForm] returns exactly the non-nil error of
    [ParseInt], [ParseUint] or [ParseFloat], and the field is as it was. *)
Theorem parse_error_of_first_failing_field input form (i : nat) fld (e : error) :
  input !! i = Some fld ->
  reflect.CanSet (snd fld) = true ->
  numeric_kind (reflect.Kind_of (snd fld)) = true ->
  matches_pattern (pattern_of fld) (formValue_of form fld) ->
  strconv_error (reflect.Kind_of (snd fld)) (formValue_of form fld) = Some e ->
  earlier_fields_pass form input i ->
  exists output,
    parseValidForm input form = Some (output, Some e) /\ output !! i = Some fld.
Proof.
  intros Hi Hset _ Hvalid Herr Hpass.
  by apply parse_error_of_first_failing_field_at.
Qed.

(** The fields after one that fails are returned as they were. *)
Lemma bind_fields_later_untouched form (fields out : list Field) r
    (i : nat) fld fld' (e : error) :
  bind_fields form fields = Some (out, r) ->
  fields !! i = Some fld ->
  parseValidForm_body form fld = Some (fld', Some e) ->
  forall j, (i < j)%nat -> out !! j = fields !! j.
Proof.
  revert out r i. induction fields as [|f rest IH]; intros out r i Hout Hi Hb j Hj; [done|].
  cbn in Hout. destruct (parseValidForm_body form f) as [[f' [e0|]]|] eqn:Hf; cbn in Hout;
    [| |done].
  - injection Hout as <- _. destruct j; [lia|done].
  - destruct (bind_fields form rest) as [[rest' r']|] eqn:Hrest; cbn in Hout; [|done].
    injection Hout as <- _.
    destruct i as [|i]; [cbn in Hi; congruence|].
    destruct j as [|j]; [lia|]. cbn. apply (IH rest' r' i); [done|done|done|lia].
Qed.

(** A field that fails has a first failing field at or before it. *)
Lemma first_failing_field form (fields : list Field) (i : nat) fld fld' (e : error) :
  fields !! i = Some fld ->
  parseValidForm_body form fld = Some (fld', Some e) ->
  exists (k : nat) first (e1 : error) (bound : list Field),
    (k <= i)%nat
    /\ fields !! k = Some first
    /\ parseValidForm_body form first = Some (first, Some e1)
    /\ Forall2 (fun f f' => parseValidForm_body form f = Some (f', None))
         (take k fields) bound.
Proof.
  revert i. induction fields as [|f rest IH]; intros i Hi Hb; [done|].
  destruct (body_total form f) as (f' & [e0|] & Hf).
  - exists 0%nat, f, e0, []. split; [lia|]. split; [done|]. split; [|constructor].
    by rewrite (body_error_unchanged _ _ _ _ Hf) in Hf.
  - destruct i as [|i]; [cbn in Hi; congruence|].
    destruct (IH i Hi Hb) as (k & first & e1 & bound & Hk & Hfirst & Hfails & Hbound).
    exists (S k), first, e1, (f' :: bound). split; [lia|]. split; [done|].
    split; [done|]. cbn. by constructor.
Qed.

(** In a settable field of a scalar kind whose form value parses in the type
    of the field, [stepped] holds the parsed value as it is. *)
Lemma stepped_parsed_value form fld :
  reflect.CanSet (snd fld) = true ->
  scalar_kind (reflect.Kind_of (snd fld)) = true ->
  parses_in (reflect.Kind_of (snd fld)) (formValue_of form fld) ->
  Some (reflect.held (snd (stepped form fld))) =
    parsed_value (reflect.Kind_of (snd fld)) (formValue_of form fld).
Proof.
  intros Hset Hk Hp.
  destruct (parses_in_scanned _ _ Hk Hp) as (_ & Hsc & [d Hd]).
  unfold stepped. rewrite Hset, Hsc, Hd. done.
Qed.

(** C5.  [parseValidForm] goes through the fields in declaration order and
    returns the first validation or coercion error at once.  If the field
    at [i] fails, there is a first field that fails, at [k <= i] ([k = i]
    when the fields before [i] pass): the call returns the error of that
    field; the fields before it are bound, each by its own step, so that
    each of them that is settable and of a kind [scan] has a case for holds
    the value parsed from its form value, stored by the setter of its kind
    (the parsed value as it is when the form value parses in the type of
    the field), and each other one is as it was; the field itself and every
    field after it, so every field after [i], are as they were; and the
    outcome is the same whatever the fields after [k] are and whatever
    their form values: they are neither validated nor parsed. *)
Theorem first_error_ends_the_loop input form (i : nat) fld fld' (e : error) :
  input !! i = Some fld ->
  parseValidForm_body form fld = Some (fld', Some e) ->
  exists (k : nat) first (e1 : error) (bound : list Field),
    (k <= i)%nat
    /\ input !! k = Some first
    /\ parseValidForm_body form first = Some (first, Some e1)
    /\ Forall2 (fun f f' => parseValidForm_body form f = Some (f', None))
         (take k input) bound
    /\ bound = stepped form <$> take k input
    /\ (forall j f, (j < k)%nat -> input !! j = Some f ->
          (bound ++ first :: drop (S k) input) !! j = Some (stepped form f)
          /\ (reflect.CanSet (snd f) = true ->
              scalar_kind (reflect.Kind_of (snd f)) = true ->
              parses_in (reflect.Kind_of (snd f)) (formValue_of form f) ->
              Some (reflect.held (snd (stepped form f))) =
                parsed_value (reflect.Kind_of (snd f)) (formValue_of form f)))
    /\ parseValidForm input form = Some (bound ++ first :: drop (S k) input, Some e1)
    /\ (forall j, (i < j)%nat ->
          (bound ++ first :: drop (S k) input) !! j = input !! j)
    /\ (forall (post : list Field) form',
          same_values form form' (take k input ++ [first]) ->
          parseValidForm (take k input ++ first :: post) form' =
            Some (bound ++ first :: post, Some e1))
    /\ (earlier_fields_pass form input i -> k = i /\ first = fld /\ e1 = e).
Proof.
  intros Hi Hb.
  destruct (first_failing_field _ _ _ _ _ _ Hi Hb)
    as (k & first & e1 & bound & Hk & Hfirst & Hfails & Hbound).
  exists k, first, e1, bound.
  assert (parseValidForm input form = Some (bound ++ first :: drop (S k) input, Some e1))
    as Hrun.
  { rewrite parseValidForm_bind_fields.
    rewrite <- (take_drop_middle input k first Hfirst) at 1.
    by apply (bind_fields_first_error _ _ _ _ _ first). }
  assert (bound = stepped form <$> take k input) as Hstepped.
  { clear -Hbound. induction Hbound as [|f f' pre pre' Hf _ IH]; [done|].
    cbn. rewrite <- IH. f_equal. clear -Hf.
    destruct f as [sf [kd cs d]].
    unfold parseValidForm_body, stepped, formValue_of, formName_of, holding in *.
    cbn [fst snd reflect.CanSet reflect.Kind_of] in *.
    destruct (valid _ _ _); [congruence|].
    unfold scan, scanned_value, reflect.SetString, reflect.SetBool, reflect.SetInt,
      reflect.SetUint, reflect.SetFloat, reflect.store in *.
    cbn [reflect.CanSet reflect.Kind_of reflect.held] in *.
    destruct cs; cbn in *; [|congruence].
    destruct kd; cbn in *; try congruence.
    all: match type of Hf with
         | context [strconv.ParseBool ?x] => destruct (strconv.ParseBool x) as [? [?|]]
         | context [strconv.ParseInt ?x 64] => destruct (strconv.ParseInt x 64) as [? [?|]]
         | context [strconv.ParseUint ?x 64] => destruct (strconv.ParseUint x 64) as [? [?|]]
         | context [ParseFloat64 ?x] => destruct (ParseFloat64 x) as [? [?|]]
         end; cbn in *; congruence. }
  do 5 (split; [done|]). split; [|split; [done|split; [|split]]].
  - intros j f Hj Hf. split; [|by apply stepped_parsed_value].
    assert (length (take k input) = k) as Hlen.
    { apply length_take_le. apply lookup_lt_Some in Hfirst. lia. }
    rewrite lookup_app_l by (rewrite Hstepped, length_fmap; lia).
    by rewrite Hstepped, list_lookup_fmap, lookup_take_lt, Hf.
  - intros j Hj. rewrite parseValidForm_bind_fields in Hrun.
    apply (bind_fields_later_untouched form input _ (Some e1) k first first e1);
      [done|done|done|lia].
  - intros post form' Hsame. rewrite parseValidForm_bind_fields.
    apply (bind_fields_first_error _ _ _ _ _ first).
    + apply (pass_same_values form); [|done].
      intros f Hf. apply Hsame. apply elem_of_app. by left.
    + rewrite (body_same_value form form'); [done|].
      apply Hsame. apply elem_of_app. right. by left.
  - intros Hpass. destruct (decide (k = i)) as [->|Hne].
    + rewrite Hi in Hfirst. injection Hfirst as <-.
      rewrite Hb in Hfails. by injection Hfails as _ <-.
    + destruct (Hpass k first) as (first' & Hok); [lia|done|]. congruence.
Qed.

(** C6.  If parsing the form of the request fails, [Context.ParseValidForm]
    returns that error and the struct is as it was, whatever its fields,
    their patterns and their kinds are: [parseValidForm] is not called. *)
Theorem malformed_form_leaves_the_struct (c : Context) input r (e : error) :
  ParseForm (req c) = (r, Some e) ->
  ParseValidForm c input = Some ({| req := r; rw := rw c |}, input, Some e).
Proof. intros Hparse. unfold ParseValidForm. by rewrite Hparse. Qed.

(** C7.  A field that cannot be set is returned by [scan] as it was, with
    a nil error, whatever the text: no coercion failure comes from it.  Its
    [valid] pattern is applied all the same: when its form value fails to
    match, [parseValidForm] fails, and with the message of the field when
    the fields before it pass. *)
Theorem unsettable_field_is_validated_not_scanned input form (i : nat) fld :
  input !! i = Some fld ->
  reflect.CanSet (snd fld) = false ->
  (forall s, scan (snd fld) s = Some (snd fld, None))
  /\ (pattern_of fld <> "" ->
      fails_to_match (pattern_of fld) (formValue_of form fld) ->
      exists output e,
        parseValidForm input form = Some (output, Some e)
        /\ (earlier_fields_pass form input i ->
            e = errors.New (msg_of fld) /\ output !! i = Some fld)).
Proof.
  intros Hi Hset. split; [intros s; by apply scan_unsettable|].
  intros Hpat Hno.
  pose proof (valid_fails_to_match _ _ (msg_of fld) Hpat Hno) as Hv.
  pose proof (body_valid_error _ _ _ Hv) as Hb.
  destruct (bind_fields_fails form input i fld fld _ Hi Hb) as (output & e & Hout).
  rewrite <- parseValidForm_bind_fields in Hout.
  exists output, e. split; [done|]. intros Hpass.
  destruct (parseValidForm_error_at _ _ _ _ _ _ Hi Hpass Hb) as (pre' & Hpre & Hout').
  rewrite Hout in Hout'. injection Hout' as -> ->. split; [done|].
  apply list_lookup_middle. apply Forall2_length in Hpre. rewrite <- Hpre.
  rewrite length_take. apply lookup_lt_Some in Hi. lia.
Qed.

(** An absent parameter reads as the empty string. *)
Lemma Get_absent form (key : string) : form !! key = None -> url.Get form key = "".
Proof. intros Hk. unfold url.Get. by rewrite Hk. Qed.

(** No [strconv] function accepts the empty string. *)
Lemma strconv_error_empty (k : reflect.Kind) :
  k = reflect.Bool \/ numeric_kind k = true ->
  strconv_error k "" = Some (strconv.syntaxError (strconv_function k) "").
Proof.
  intros [->|Hk]; [done|].
  destruct k; try discriminate; cbn; try done; apply ParseFloat64_empty.
Qed.

(** The loop binds the field at [i] when the fields before it pass and its
    own step succeeds, whatever comes after. *)
Lemma parseValidForm_bound_at form input (i : nat) fld fld' :
  input !! i = Some fld ->
  earlier_fields_pass form input i ->
  parseValidForm_body form fld = Some (fld', None) ->
  exists output r, parseValidForm input form = Some (output, r) /\ output !! i = Some fld'.
Proof.
  intros Hi Hpass Hb. destruct (earlier_fields_bound _ _ _ Hpass) as (pre' & Hpre).
  destruct (bind_fields_total form (drop (S i) input)) as (rest' & r & Hrest).
  exists (pre' ++ fld' :: rest'), r. split.
  { rewrite parseValidForm_bind_fields.
    rewrite <- (take_drop_middle input i fld Hi) at 1.
    rewrite (bind_fields_app_pass _ _ pre') by done. cbn.
    rewrite Hb. cbn. by rewrite Hrest. }
  apply list_lookup_middle. apply Forall2_length in Hpre. rewrite <- Hpre.
  rewrite length_take. apply lookup_lt_Some in Hi. lia.
Qed.

(** C8 (as amended).  When the form has no parameter of the name of a
    settable field, the field is bound from the empty string.  If every
    earlier field passes and the empty string passes the pattern of the
    field: a [string] field is set to the empty string and its step
    succeeds; a [bool] field, an [int], [int8], [int16], [int32] or [int64]
    field, a [uint], [uint8], [uint16], [uint32] or [uint64] field (not a
    [uintptr] field, which [scan] has no case for), a [float32] or
    [float64] field makes [parseValidForm] return the non-nil syntax error
    of [ParseBool], [ParseInt], [ParseUint] or [ParseFloat] on the empty
    string. *)
Theorem absent_parameter_is_the_empty_string input form (i : nat) fld :
  input !! i = Some fld ->
  form !! formName_of fld = None ->
  reflect.CanSet (snd fld) = true ->
  matches_pattern (pattern_of fld) "" ->
  earlier_fields_pass form input i ->
  formValue_of form fld = ""
  /\ (reflect.Kind_of (snd fld) = reflect.String ->
      parseValidForm_body form fld = Some (holding fld (reflect.VString ""), None)
      /\ exists output r,
           parseValidForm input form = Some (output, r)
           /\ output !! i = Some (holding fld (reflect.VString "")))
  /\ (reflect.Kind_of (snd fld) = reflect.Bool
      \/ numeric_kind (reflect.Kind_of (snd fld)) = true ->
      exists output,
        parseValidForm input form =
          Some (output,
                Some (strconv.syntaxError (strconv_function (reflect.Kind_of (snd fld))) ""))
        /\ output !! i = Some fld).
Proof.
  intros Hi Habsent Hset Hvalid Hpass.
  assert (formValue_of form fld = "") as Hval by (by apply Get_absent).
  split; [done|]. split.
  - intros Hk.
    assert (parseValidForm_body form fld = Some (holding fld (reflect.VString ""), None))
      as Hb.
    { rewrite body_valid_ok
        by (rewrite Hval; by apply (valid_matches "" (pattern_of fld) (msg_of fld))).
      rewrite scan_settable_ok by (by rewrite ?Hk).
      rewrite Hk, Hval. done. }
    split; [done|]. by apply (parseValidForm_bound_at form input i fld).
  - intros Hk. apply strconv_error_empty in Hk.
    apply parse_error_of_first_failing_field_at; try done; by rewrite Hval.
Qed.


End Claims.

(** ** The claims about the encoders *)

Section Responses.
Context `{Platform} `{StrconvFloat} `{RegexpPkg} `{NetHTTP} `{Encoders}.
Implicit Types (w : http.ResponseWriter) (c : Context).

Lemma contentType_canonical : textproto.CanonicalMIMEHeaderKey contentType = contentType.
Proof. reflexivity. Qed.

(** [Head] adds the header and writes nothing. *)
Lemma Head_adds_header c (mime : string) :
  header_then_body mime [] (rw c) (rw (Head c contentType mime)).
Proof.
  unfold header_then_body, Head, rw_Header_Add, http.Add. cbn.
  rewrite contentType_canonical. split; [done|]. apply lookup_insert_eq.
Qed.

(** A [Write] adds one write of body bytes after what was done. *)
Lemma Write_after_header (mime : string) ws w0 w (p : list Byte.byte) :
  header_then_body mime ws w0 w ->
  header_then_body mime (ws ++ [p]) w0 (fst (rw_Write w p)).
Proof.
  intros [Hlog Hhdr]. unfold header_then_body, rw_Write. cbn. split; [|done].
  rewrite Hlog, map_app. cbn. by rewrite <- app_assoc.
Qed.

Lemma write_chunks_after_header (mime : string) chunks ws w0 w :
  header_then_body mime ws w0 w ->
  exists ws', header_then_body mime ws' w0 (fst (write_chunks w chunks)).
Proof.
  revert ws w. induction chunks as [|p chunks IH]; intros ws w Hw;
    cbn [write_chunks]; [by exists ws|].
  pose proof (Write_after_header _ _ _ _ p Hw) as Hw'.
  destruct (rw_Write w p) as [w' [e|]]; cbn [fst] in *; [by eexists|].
  by apply (IH (ws ++ [p])).
Qed.

Lemma json_Encode_after_header (mime : string) (i : any) w0 w :
  header_then_body mime [] w0 w ->
  exists ws, header_then_body mime ws w0 (fst (json_Encode w i)).
Proof.
  intros Hw. unfold json_Encode. destruct (json_marshal i) as [b|err]; cbn; [|eauto].
  eexists. by apply Write_after_header.
Qed.

Lemma xml_Encode_after_header (mime : string) (i : any) w0 w :
  header_then_body mime [] w0 w ->
  exists ws, header_then_body mime ws w0 (fst (xml_Encode w i)).
Proof.
  intros Hw. unfold xml_Encode.
  destruct (xml_marshalValue i) as [[flushed buffered] merr].
  destruct (write_chunks_after_header _ flushed _ _ _ Hw) as (ws & Hws).
  destruct (write_chunks w flushed) as [w' werr]; cbn in Hws.
  destruct werr as [e|]; [eauto|]. destruct merr as [e|]; [eauto|].
  destruct buffered as [|b buffered]; [eauto|].
  eexists. by apply Write_after_header.
Qed.

(** C4.  For every value passed to [Context.JSON], [Context.XML] or
    [Context.ASN1], what the method does to the response writer is: add the
    header [Content-Type] with the matching type ([application/json],
    [application/xml], [application/asn1]), and only then write body bytes.
    When [asn1.Marshal] fails, [ASN1] returns its error, the header is added
    and no body byte is written. *)
Theorem content_type_precedes_the_body c (i : any) :
  (exists ws, header_then_body applicationJSON ws (rw c) (rw (fst (JSON c i))))
  /\ (exists ws, header_then_body applicationXML ws (rw c) (rw (fst (XML c i))))
  /\ (exists ws, header_then_body applicationASN1 ws (rw c) (rw (fst (ASN1 c i))))
  /\ (forall err, asn1_Marshal i = inr err ->
        header_then_body applicationASN1 [] (rw c) (rw (fst (ASN1 c i)))
        /\ snd (ASN1 c i) = Some err).
Proof.
  split; [|split; [|split]].
  - unfold JSON.
    destruct (json_Encode_after_header applicationJSON i (rw c)
                (rw (Head c contentType applicationJSON))) as (ws & Hws);
      [apply Head_adds_header|].
    destruct (json_Encode _ i) as [w err]. eauto.
  - unfold XML.
    destruct (xml_Encode_after_header applicationXML i (rw c)
                (rw (Head c contentType applicationXML))) as (ws & Hws);
      [apply Head_adds_header|].
    destruct (xml_Encode _ i) as [w err]. eauto.
  - unfold ASN1. destruct (asn1_Marshal i) as [bts|err].
    + pose proof (Write_after_header _ _ _ _ bts
                    (Head_adds_header c applicationASN1)) as Hw.
      destruct (rw_Write _ bts) as [w err]. eauto.
    + exists []. apply Head_adds_header.
  - intros err Herr. unfold ASN1. rewrite Herr. split; [|done].
    apply Head_adds_header.
Qed.

End Responses.

(** ** Further properties of [parseValidForm] and [scan] *)

Section Binding.
Context `{Platform} `{StrconvFloat} `{RegexpPkg} `{NetHTTP} `{Encoders}.
Implicit Types (form : url.Values) (fld : Field) (input : StructValue).
Local Open Scope Z_scope.

(** The error of [scan] is the error of [strconv] for a settable field,
    and nil for a field that cannot be set. *)
Lemma scan_error (v : Value) (s : string) :
  exists v',
    scan v s = Some (v', if reflect.CanSet v
                         then strconv_error (reflect.Kind_of v) s else None).
Proof.
  destruct (reflect.CanSet v) eqn:Hset; [|rewrite scan_unsettable by done; eauto].
  destruct (strconv_error (reflect.Kind_of v) s) as [e|] eqn:He.
  - rewrite (scan_settable_err _ _ e) by done. eauto.
  - rewrite scan_settable_ok by done. eauto.
Qed.

(** The step of a field succeeds exactly when its form value passes the
    pattern and, for a settable field, [strconv] accepts it. *)
Lemma step_passes_iff form fld :
  (exists fld', step_passes form fld fld')
  <-> matches_pattern (pattern_of fld) (formValue_of form fld)
      /\ (reflect.CanSet (snd fld) = true ->
          strconv_error (reflect.Kind_of (snd fld)) (formValue_of form fld) = None).
Proof.
  unfold step_passes.
  destruct (valid (formValue_of form fld) (pattern_of fld) (msg_of fld)) as [e|] eqn:Hv.
  - rewrite (body_valid_error _ _ e) by done. split.
    + intros (fld' & Hb). discriminate Hb.
    + intros [Hm _]. apply (valid_matches _ _ (msg_of fld)) in Hm. congruence.
  - rewrite body_valid_ok by done.
    destruct (scan_error (snd fld) (formValue_of form fld)) as (v' & ->). cbn.
    split.
    + intros (fld' & Hb). split; [by apply (valid_matches _ _ (msg_of fld))|].
      intros Hset. rewrite Hset in Hb. by injection Hb as _ <-.
    + intros [_ Hok]. destruct (reflect.CanSet (snd fld)); [|eauto].
      rewrite Hok by done. eauto.
Qed.

(** [parseValidForm] returns nil exactly when every field passes: its form
    value matches its pattern, if it has one, and, if the field is
    settable, the [strconv] function of its kind accepts the value. *)
Theorem parseValidForm_nil_iff input form :
  (exists output, parseValidForm input form = Some (output, None))
  <-> forall fld, fld ∈ input ->
        matches_pattern (pattern_of fld) (formValue_of form fld)
        /\ (reflect.CanSet (snd fld) = true ->
            strconv_error (reflect.Kind_of (snd fld)) (formValue_of form fld) = None).
Proof.
  rewrite parseValidForm_bind_fields. split.
  - intros (output & Hrun) fld Hin. apply bind_fields_pass_inv in Hrun.
    apply list_elem_of_lookup in Hin as (i & Hi).
    destruct (Forall2_lookup_l _ _ _ _ _ Hrun Hi) as (fld' & _ & Hstep).
    apply step_passes_iff. by exists fld'.
  - induction input as [|fld rest IH]; intros Hall; [by exists []|].
    destruct (proj2 (step_passes_iff form fld)) as (fld' & Hstep); [apply Hall; left|].
    destruct IH as (rest' & Hrest); [intros f Hf; apply Hall; by right|].
    exists (fld' :: rest'). cbn. unfold step_passes in Hstep. rewrite Hstep. cbn.
    by rewrite Hrest.
Qed.

(** [parseValidForm] always returns: no setter panics, since [scan] calls
    a setter only on a settable value of the kind of the setter.  Whatever
    the outcome, the struct returned has the fields of the struct passed,
    in the same order, each with its name, tag, kind and settability. *)
Theorem parseValidForm_keeps_the_shape input form :
  exists output r,
    parseValidForm input form = Some (output, r)
    /\ Forall2 same_shape input output.
Proof.
  rewrite parseValidForm_bind_fields.
  induction input as [|fld rest (rest' & r & Hrest & Hshape)]; cbn.
  - exists [], None. by split; [|constructor].
  - destruct (body_total form fld) as (fld' & r0 & Hb). rewrite Hb. cbn.
    pose proof (body_same_field _ _ _ _ Hb) as Hsame.
    destruct r0 as [e|].
    + exists (fld' :: rest), (Some e). split; [done|]. constructor; [done|].
      clear. induction rest; constructor; [by repeat split|done].
    + rewrite Hrest. cbn. exists (fld' :: rest'), r. split; [done|]. by constructor.
Qed.

(** What the step of a field leaves is a fixed point of the step: the
    pattern and the text are those of the tag and the form, and the value
    stored is stored again. *)
Lemma body_idempotent form fld fld' r :
  parseValidForm_body form fld = Some (fld', r) ->
  parseValidForm_body form fld' = Some (fld', r).
Proof.
  intros Hb. pose proof (body_same_field _ _ _ _ Hb) as (Hfst & Hkind & Hset).
  assert (formValue_of form fld' = formValue_of form fld) as Hvalue
    by (unfold formValue_of, formName_of; by rewrite Hfst).
  assert (pattern_of fld' = pattern_of fld) as Hpat by (unfold pattern_of; by rewrite Hfst).
  assert (msg_of fld' = msg_of fld) as Hmsg by (unfold msg_of; by rewrite Hfst).
  destruct (valid (formValue_of form fld) (pattern_of fld) (msg_of fld)) as [e|] eqn:Hv.
  - rewrite (body_valid_error _ _ e) in Hb by done. injection Hb as <- <-.
    by apply body_valid_error.
  - rewrite body_valid_ok in Hb by done.
    rewrite body_valid_ok by (by rewrite Hvalue, Hpat, Hmsg).
    rewrite Hvalue.
    destruct (scan (snd fld) (formValue_of form fld)) as [[v' r']|] eqn:Hs; [|done].
    cbn in Hb. injection Hb as <- <-. cbn [fst snd] in *.
    assert (scan v' (formValue_of form fld) = Some (v', r')) as ->; [|done].
    destruct (reflect.CanSet (snd fld)) eqn:Hcan.
    + destruct (strconv_error (reflect.Kind_of (snd fld)) (formValue_of form fld))
        as [e|] eqn:He.
      * rewrite (scan_settable_err _ _ e) in Hs by done. injection Hs as <- <-.
        by apply scan_settable_err.
      * rewrite scan_settable_ok in Hs by done. injection Hs as <- <-.
        rewrite scan_settable_ok by (by rewrite ?Hkind).
        rewrite Hkind. by destruct (scanned_value _ _).
    + rewrite scan_unsettable in Hs by done. injection Hs as <- <-.
      by apply scan_unsettable.
Qed.

(** Binding twice is binding once: on the struct it returns and the same
    form, [parseValidForm] returns the same struct and the same error. *)
Theorem parseValidForm_idempotent input form output r :
  parseValidForm input form = Some (output, r) ->
  parseValidForm output form = Some (output, r).
Proof.
  rewrite !parseValidForm_bind_fields.
  revert output r. induction input as [|fld rest IH]; intros output r; cbn.
  - by intros [= <- <-].
  - destruct (parseValidForm_body form fld) as [[fld' [e|]]|] eqn:Hb; cbn; [| |done].
    + intros [= <- <-]. cbn. by rewrite (body_idempotent _ _ _ _ Hb).
    + destruct (bind_fields form rest) as [[rest' r']|] eqn:Hrest; cbn; [|done].
      intros [= <- <-]. cbn. rewrite (body_idempotent _ _ _ _ Hb). cbn.
      by rewrite (IH rest' r').
Qed.

(** The form is read at the names of the fields only, and only for the
    first value under a name: two forms with the same first value under the
    [form] name of every field give the same struct and the same error. *)
Theorem parseValidForm_reads_first_values input form form' :
  same_values form form' input ->
  parseValidForm input form' = parseValidForm input form.
Proof.
  intros Hsame. rewrite !parseValidForm_bind_fields.
  by apply bind_fields_same_values.
Qed.

(** The error of a step depends on the shape of the field, not on what
    the field holds. *)
Lemma body_error_of_shape form fld1 fld2 :
  same_shape fld1 fld2 ->
  snd <$> parseValidForm_body form fld1 = snd <$> parseValidForm_body form fld2.
Proof.
  intros (Hfst & Hkind & Hset).
  assert (formValue_of form fld2 = formValue_of form fld1) as Hvalue
    by (unfold formValue_of, formName_of; by rewrite Hfst).
  assert (pattern_of fld2 = pattern_of fld1) as Hpat by (unfold pattern_of; by rewrite Hfst).
  assert (msg_of fld2 = msg_of fld1) as Hmsg by (unfold msg_of; by rewrite Hfst).
  destruct (valid (formValue_of form fld1) (pattern_of fld1) (msg_of fld1)) as [e|] eqn:Hv.
  - rewrite (body_valid_error _ fld1 e) by done.
    by rewrite (body_valid_error _ fld2 e) by (by rewrite Hvalue, Hpat, Hmsg).
  - rewrite (body_valid_ok _ fld1) by done.
    rewrite (body_valid_ok _ fld2) by (by rewrite Hvalue, Hpat, Hmsg).
    rewrite Hvalue.
    destruct (scan_error (snd fld1) (formValue_of form fld1)) as (v1 & ->).
    destruct (scan_error (snd fld2) (formValue_of form fld1)) as (v2 & ->).
    cbn. by rewrite Hkind, Hset.
Qed.

(** The error [parseValidForm] returns depends on the declaration of the
    struct (tags, kinds, settability) and on the form, not on what the
    fields hold when it is called. *)
Theorem parseValidForm_error_of_shape input1 input2 form :
  Forall2 same_shape input1 input2 ->
  snd <$> parseValidForm input1 form = snd <$> parseValidForm input2 form.
Proof.
  rewrite !parseValidForm_bind_fields.
  induction 1 as [|fld1 fld2 rest1 rest2 Hshape _ IH]; cbn; [done|].
  pose proof (body_error_of_shape form _ _ Hshape) as Herr.
  destruct (body_total form fld1) as (f1 & r1 & Hb1).
  destruct (body_total form fld2) as (f2 & r2 & Hb2).
  rewrite Hb1, Hb2 in Herr |- *. cbn in Herr |- *. injection Herr as <-.
  destruct r1 as [e|]; [done|].
  destruct (bind_fields_total form rest1) as (o1 & q1 & Hr1).
  destruct (bind_fields_total form rest2) as (o2 & q2 & Hr2).
  rewrite Hr1, Hr2 in IH |- *. cbn in IH |- *. by injection IH as <-.
Qed.

(** A failing call has a first failing field. *)
Lemma bind_fields_error_inv form (fields out : list Field) (e : error) :
  bind_fields form fields = Some (out, Some e) ->
  exists (k : nat) fld,
    fields !! k = Some fld
    /\ parseValidForm_body form fld = Some (fld, Some e)
    /\ earlier_fields_pass form fields k.
Proof.
  revert out. induction fields as [|f rest IH]; intros out; cbn; [done|].
  destruct (parseValidForm_body form f) as [[f' [e0|]]|] eqn:Hf; cbn; [| |done].
  - intros [= <- <-]. exists 0%nat, f. split; [done|].
    split; [by rewrite <- (body_error_unchanged _ _ _ _ Hf) at 2|].
    intros j g Hj. lia.
  - destruct (bind_fields form rest) as [[rest' r']|] eqn:Hrest; cbn; [|done].
    intros [= <- ->]. destruct (IH rest' eq_refl) as (k & fld & Hk & Hb & Hpass).
    exists (S k), fld. split; [done|]. split; [done|].
    intros [|j] g Hj Hg; cbn in Hg.
    + injection Hg as <-. eauto.
    + apply (Hpass j); [lia|done].
Qed.

Lemma valid_error_cases (s validate msg : string) (e : error) :
  valid s validate msg = Some e ->
  validate <> ""
  /\ (invalid_pattern validate e
      \/ (fails_to_match validate s /\ e = errors.New msg)).
Proof.
  unfold valid, invalid_pattern, fails_to_match.
  case_bool_decide as Hv; [done|]. intros Hvalid. split; [done|].
  destruct (Compile validate) as [rxp|err]; [|left; congruence].
  destruct (MatchString rxp s) eqn:Hm; cbn in Hvalid; [done|].
  right. split; [eauto|congruence].
Qed.

Lemma strconv_error_kind (k : reflect.Kind) (s : string) (e : error) :
  strconv_error k s = Some e -> parsed_kind k.
Proof. unfold parsed_kind. destruct k; cbn; try done; auto. Qed.

(** Every error [parseValidForm] returns is the error of the first field
    that fails, and is of one of three sorts: the error of
    [regexp.Compile] on the field's pattern, [errors.New] of the field's
    message when the pattern is valid and the value has no match, or the
    error of [strconv] on the value of a settable field of kind [bool],
    [int] to [int64], [uint] to [uint64], [float32] or [float64]
    that passed its pattern. *)
Theorem parseValidForm_error_sorts input form output (e : error) :
  parseValidForm input form = Some (output, Some e) ->
  exists (k : nat) fld,
    input !! k = Some fld
    /\ earlier_fields_pass form input k
    /\ output !! k = Some fld
    /\ ((pattern_of fld <> "" /\ invalid_pattern (pattern_of fld) e)
        \/ (pattern_of fld <> ""
            /\ fails_to_match (pattern_of fld) (formValue_of form fld)
            /\ e = errors.New (msg_of fld))
        \/ (matches_pattern (pattern_of fld) (formValue_of form fld)
            /\ reflect.CanSet (snd fld) = true
            /\ parsed_kind (reflect.Kind_of (snd fld))
            /\ strconv_error (reflect.Kind_of (snd fld)) (formValue_of form fld) = Some e)).
Proof.
  intros Hrun. pose proof Hrun as Hbind. rewrite parseValidForm_bind_fields in Hbind.
  destruct (bind_fields_error_inv _ _ _ _ Hbind) as (k & fld & Hk & Hb & Hpass).
  exists k, fld. split; [done|]. split; [done|]. split.
  - destruct (parseValidForm_error_at _ _ _ _ _ _ Hk Hpass Hb) as (pre' & Hpre & Hout).
    rewrite Hrun in Hout. injection Hout as ->.
    apply list_lookup_middle. apply Forall2_length in Hpre. rewrite <- Hpre.
    rewrite length_take. apply lookup_lt_Some in Hk. lia.
  - destruct (valid (formValue_of form fld) (pattern_of fld) (msg_of fld)) as [e0|] eqn:Hv.
    + rewrite (body_valid_error _ _ e0) in Hb by done. injection Hb as ->.
      apply valid_error_cases in Hv as (Hpat & [Hbad|[Hno ->]]); [left|right; left]; done.
    + right. right. rewrite body_valid_ok in Hb by done.
      destruct (scan_error (snd fld) (formValue_of form fld)) as (v' & Hs).
      rewrite Hs in Hb. cbn in Hb. injection Hb as _ Herr.
      split; [by apply (valid_matches _ _ (msg_of fld))|].
      destruct (reflect.CanSet (snd fld)); [|done].
      split; [done|]. split; [by apply (strconv_error_kind _ (formValue_of form fld) e)|done].
Qed.

(** Every settable field of kind [bool], [int], [int8], [int16], [int32],
    [int64], [uint], [uint8], [uint16], [uint32], [uint64], [float32] or
    [float64] (the kinds whose case in [scan] calls [strconv]; [uintptr] is
    not one of them) needs a value: when the form has no parameter of its
    name, or an empty first value under it, the call fails, whatever the
    other fields and the patterns are. *)
Theorem empty_value_fails_the_call input form (i : nat) fld :
  input !! i = Some fld ->
  formValue_of form fld = "" ->
  reflect.CanSet (snd fld) = true ->
  parsed_kind (reflect.Kind_of (snd fld)) ->
  exists output e, parseValidForm input form = Some (output, Some e).
Proof.
  intros Hi Hempty Hset Hkind. rewrite parseValidForm_bind_fields.
  destruct (valid (formValue_of form fld) (pattern_of fld) (msg_of fld)) as [e|] eqn:Hv.
  - apply (bind_fields_fails form input i fld fld e Hi). by apply body_valid_error.
  - apply (bind_fields_fails form input i fld fld
             (strconv.syntaxError (strconv_function (reflect.Kind_of (snd fld))) "") Hi).
    apply body_parse_error; [done|by apply (valid_matches _ _ (msg_of fld))|].
    rewrite Hempty. by apply strconv_error_empty.
Qed.

(** A struct without patterns whose fields are strings, cannot be set, or
    are of a kind [scan] has no case for (a [uintptr], a slice, a struct,
    ...) is bound by every form, with a nil error: each settable string
    field holds the first value under its name, the empty string when
    there is none, and every other field is as it was, also when the form
    has a value for it. *)
Theorem strings_never_fail input form :
  (forall fld, fld ∈ input ->
     pattern_of fld = ""
     /\ (reflect.CanSet (snd fld) = false
         \/ reflect.Kind_of (snd fld) = reflect.String
         \/ scalar_kind (reflect.Kind_of (snd fld)) = false)) ->
  parseValidForm input form = Some (string_bound form <$> input, None).
Proof.
  rewrite parseValidForm_bind_fields.
  induction input as [|fld rest IH]; intros Hall; [done|]. cbn.
  destruct (Hall fld) as [Hpat Hkind]; [left|].
  assert (parseValidForm_body form fld = Some (string_bound form fld, None)) as ->.
  { rewrite body_valid_ok by (rewrite Hpat; apply valid_no_pattern).
    unfold string_bound. destruct (reflect.CanSet (snd fld)) eqn:Hset.
    - assert (strconv_error (reflect.Kind_of (snd fld)) (formValue_of form fld) = None)
        as Herr by (destruct Hkind as [?|[->| Hk]]; [done|done|];
                    by destruct (reflect.Kind_of (snd fld))).
      rewrite scan_settable_ok by done. cbn.
      destruct Hkind as [?|[Hk|Hk]]; [done| |].
      + rewrite Hk. by rewrite bool_decide_eq_true_2 by done.
      + rewrite bool_decide_eq_false_2 by (intros Hs; by rewrite Hs in Hk).
        destruct (reflect.Kind_of (snd fld)); try discriminate Hk; by destruct fld.
    - rewrite scan_unsettable by done. cbn. by destruct fld. }
  cbn. rewrite IH; [done|]. intros f Hf. apply Hall. by right.
Qed.


(** [scan] leaves in a field a value of the kind of the field. *)
Lemma scan_holds_its_kind (v v' : Value) (s : string) r :
  holds_its_kind v -> scan v s = Some (v', r) -> holds_its_kind v'.
Proof.
  intros Hv. destruct (reflect.CanSet v) eqn:Hset;
    [|rewrite scan_unsettable by done; by intros [= <- <-]].
  destruct (strconv_error (reflect.Kind_of v) s) as [e|] eqn:He.
  { rewrite (scan_settable_err _ _ e) by done. by intros [= <- <-]. }
  rewrite scan_settable_ok by done. intros [= <- <-].
  destruct (integer_kind (reflect.Kind_of v)) eqn:Hint.
  - pose proof (bits_integer_kind _ Hint) as Hw.
    assert (scanned_value (reflect.Kind_of v) s =
            Some (integer_data (reflect.Kind_of v)
                    (convert (reflect.Kind_of v) (fst (parse64 (reflect.Kind_of v) s)))))
      as -> by (unfold parse64, integer_data, convert;
                by destruct (reflect.Kind_of v)).
    unfold holds_its_kind. cbn [reflect.store reflect.Kind_of reflect.held].
    assert (in_range (reflect.Kind_of v)
              (convert (reflect.Kind_of v) (fst (parse64 (reflect.Kind_of v) s)))) as Hr.
    { unfold in_range, convert. destruct (signed_kind (reflect.Kind_of v)).
      - apply wrap_signed_spec. lia.
      - apply wrap_unsigned_spec. lia. }
    destruct (reflect.Kind_of v); try discriminate Hint; cbn [integer_kind signed_kind
      unsigned_kind orb]; eauto.
  - unfold holds_its_kind in *. destruct v as [k cs d]. cbn in *.
    destruct k; try discriminate Hint; cbn; eauto.
Qed.

(** [parseValidForm] keeps the fields well typed: if every field holds a
    value of its kind before the call (an integer field a number of its
    range), every field does after it, whatever the form and the outcome. *)
Theorem parseValidForm_holds_the_kinds input form output r :
  Forall (fun fld => holds_its_kind (snd fld)) input ->
  parseValidForm input form = Some (output, r) ->
  Forall (fun fld => holds_its_kind (snd fld)) output.
Proof.
  rewrite parseValidForm_bind_fields.
  intros Hin. revert output r.
  induction Hin as [|fld rest Hfld Hrest IH]; intros output r; cbn.
  - intros [= <- <-]. constructor.
  - assert (forall fld' r', parseValidForm_body form fld = Some (fld', r') ->
              holds_its_kind (snd fld')) as Hstep.
    { intros fld' r'.
      destruct (valid (formValue_of form fld) (pattern_of fld) (msg_of fld)) as [e|] eqn:Hv.
      - rewrite (body_valid_error _ _ e) by done. by intros [= <- <-].
      - rewrite body_valid_ok by done.
        destruct (scan (snd fld) (formValue_of form fld)) as [[v' q]|] eqn:Hs; [|done].
        cbn. intros [= <- <-]. cbn. by apply (scan_holds_its_kind _ _ _ _ Hfld Hs). }
    destruct (parseValidForm_body form fld) as [[fld' [e|]]|] eqn:Hb; cbn; [| |done].
    + intros [= <- <-]. constructor; [by apply (Hstep _ _ eq_refl)|done].
    + destruct (bind_fields form rest) as [[rest' r']|] eqn:Hr; cbn; [|done].
      intros [= <- <-]. constructor; [by apply (Hstep _ _ eq_refl)|by apply (IH _ r')].
Qed.

End Binding.

(** ** Further properties of [Context.ParseValidForm] and [Context.Head] *)

Section Contexts.
Context `{Platform} `{StrconvFloat} `{RegexpPkg} `{NetHTTP} `{Encoders}.
Implicit Types (c : Context) (input : StructValue).

(** [Context.ParseValidForm] always returns, never touches the response
    writer, and leaves in the context the request as [ParseForm] left it.
    It returns nil exactly when [ParseForm] does and every field passes on
    the form [ParseForm] decoded: the form value matches the pattern of the
    field and, for a settable field, [strconv] accepts it. *)
Theorem ParseValidForm_nil_iff c input :
  (exists c' output r,
     ParseValidForm c input = Some (c', output, r)
     /\ rw c' = rw c /\ req c' = fst (ParseForm (req c)))
  /\ ((exists c' output, ParseValidForm c input = Some (c', output, None))
      <-> snd (ParseForm (req c)) = None
          /\ forall fld, fld ∈ input ->
               let form := Form (fst (ParseForm (req c))) in
               matches_pattern (pattern_of fld) (formValue_of form fld)
               /\ (reflect.CanSet (snd fld) = true ->
                   strconv_error (reflect.Kind_of (snd fld)) (formValue_of form fld)
                     = None)).
Proof.
  unfold ParseValidForm. destruct (ParseForm (req c)) as [r [e|]]; cbn.
  - split; [by eexists _, _, _|]. split; [by intros (? & ? & ?)|by intros [? _]].
  - destruct (parseValidForm_keeps_the_shape input (Form r)) as (output & q & Hrun & _).
    rewrite Hrun. cbn. split; [by eexists _, _, _|].
    rewrite <- parseValidForm_nil_iff. rewrite Hrun. split.
    + intros (c' & o & [= _ _ ->]). split; [done|by eexists].
    + intros [_ (o & [= _ ->])]. by eexists _, _.
Qed.

(** A run of [Head] calls only adds: under every canonical key the header
    holds the values it held, followed by the values added under the keys
    of that canonical form, in call order; the request is untouched, and
    the writer has recorded one header add per call and nothing else. *)
Theorem Heads_only_add c (kvs : list (string * string)) (key : string) :
  default [] (http.header (rw (Heads c kvs)) !! key) =
    default [] (http.header (rw c) !! key) ++ added_under key kvs
  /\ req (Heads c kvs) = req c
  /\ http.log (rw (Heads c kvs)) =
       http.log (rw c) ++
       ((fun kv => http.EvHeaderAdd (textproto.CanonicalMIMEHeaderKey (fst kv)) (snd kv))
          <$> kvs).
Proof.
  revert c. induction kvs as [|[k v] kvs IH]; intros c.
  - cbn. by rewrite !app_nil_r.
  - destruct (IH (Head c k v)) as (Hhdr & Hreq & Hlog).
    change (Heads c ((k, v) :: kvs)) with (Heads (Head c k v) kvs).
    rewrite Hhdr, Hreq, Hlog. split; [|split; [done|]].
    + unfold added_under, Head, rw_Header_Add, http.Add. cbn [rw http.header].
      destruct (decide (textproto.CanonicalMIMEHeaderKey k = key)) as [<-|Hne].
      * rewrite lookup_insert_eq. rewrite filter_cons_True by done. cbn.
        by rewrite <- app_assoc.
      * rewrite lookup_insert_ne by done. by rewrite filter_cons_False by done.
    + cbn. by rewrite <- app_assoc.
Qed.

End Contexts.

(** * The code on the example structs and forms *)

Section Runs.
Import Model Examples.

#[local] Existing Instance amd64.
#[local] Existing Instance strconvFloat.
#[local] Existing Instance regexp.
#[local] Existing Instance netHTTP.
#[local] Existing Instance encoders.

(** Every field of a list written out. *)
Ltac each_field Hin :=
  repeat (apply elem_of_cons in Hin as [->|Hin]); [..|by apply elem_of_nil in Hin].

(** Goals that hold by running the code: by conversion, the instances of
    the interfaces are not unfolded further than the run needs. *)
Ltac run := first [exact I | exact eq_refl].

Ltac run_pattern :=
  first [ left; run | right; eexists; split; run ].

Ltac run_earlier :=
  let j := fresh "j" in let f := fresh "f" in
  let Hj := fresh "Hj" in let Hf := fresh "Hf" in
  intros j f Hj Hf;
  repeat (destruct j as [|j]; [cbn in Hf; injection Hf as <-; eexists; run|]);
  lia.

Example run_signup : parseValidForm signup signup_form = Some (signup_bound, None).
Proof. run. Qed.

Example run_private_name :
  parseValidForm private_name name_bob = Some (private_name, None).
Proof. run. Qed.

Example run_bad_pattern :
  parseValidForm bad_pattern name_bob =
    Some (bad_pattern, Some (regexpError "missing closing )" "(")).
Proof. run. Qed.

Example run_bad_name_bad_age :
  parseValidForm name_age bad_name_bad_age = Some (name_age, Some (errors.New "bad name")).
Proof. run. Qed.

Example run_bad_name_no_age :
  parseValidForm name_age bad_name_no_age = Some (name_age, Some (errors.New "bad name")).
Proof. run. Qed.

Example run_level_300 :
  scan level "300" = Some (reflect.store level (reflect.VInt 44), None).
Proof. run. Qed.

(** C1, on the sign-up form. *)
Lemma signup_is_bound :
  exists output,
    parseValidForm signup signup_form = Some (output, None)
    /\ Forall2 (bound_to signup_form) signup output.
Proof.
  apply parseValidForm_binds_settable_fields.
  - intros fld Hin Hset. each_field Hin; first [run | discriminate Hset].
  - intros fld Hin. each_field Hin; run_pattern.
  - intros fld Hin Hset. each_field Hin; first [run | discriminate Hset].
Defined.

(** C1 as stated fails on a struct with an unexported field: the field has
    a form value, [scan] does not set it, and it does not equal the value. *)
Lemma unexported_field_is_not_bound :
  ~ binds_every_field
  /\ parseValidForm private_name name_bob = Some (private_name, None)
  /\ parsed_value reflect.String (url.Get name_bob "name") = Some (reflect.VString "bob")
  /\ reflect.VString "" <> reflect.VString "bob".
Proof.
  split; [|split; [exact run_private_name|split; [run|discriminate]]].
  intros Hclaim. destruct (Hclaim private_name name_bob) as (output & Hrun & Hall).
  - intros fld Hin Hset. each_field Hin. discriminate Hset.
  - intros fld Hin. each_field Hin. split; [exact I|by left].
  - rewrite run_private_name in Hrun. injection Hrun as <-.
    apply Forall2_cons_1 in Hall as [Hhead _].
    change (Some (reflect.VString "") = Some (reflect.VString "bob")) in Hhead.
    discriminate Hhead.
Qed.

(** C2, on a name that does not match its pattern: the error is
    [errors.New] of the message of the tag. *)
Lemma bad_name_is_reported :
  exists output,
    parseValidForm name_age bad_name_bad_age = Some (output, Some (errors.New "bad name"))
    /\ Error (errors.New "bad name") = "bad name"
    /\ ParseValidForm (context_with bad_name_bad_age) name_age =
       Some (context_with bad_name_bad_age, output, Some (errors.New "bad name")).
Proof.
  destruct (validation_failure_is_reported name_age bad_name_bad_age 0
              (field "Name" [("form", "name"); ("valid", "^[a-z]+$"); ("msg", "bad name")]
                 reflect.String true (reflect.VString "")))
    as (output & e & Hrun & Hcontext & Hfirst).
  - run.
  - discriminate.
  - right. eexists. split; run.
  - destruct Hfirst as [Hmsg _]; [run_earlier|].
    destruct Hmsg as [-> Hmessage]; [eexists; split; run|].
    exists output. split; [exact Hrun|]. split; [exact Hmessage|].
    apply (Hcontext (context_with bad_name_bad_age)); run.
Defined.

(** C2 as stated fails on a pattern that does not compile: the error is the
    one of [regexp.Compile], its message is not the [msg] of the tag. *)
Lemma invalid_pattern_is_not_msg :
  ~ validation_error_is_msg
  /\ parseValidForm bad_pattern name_bob =
       Some (bad_pattern, Some (regexpError "missing closing )" "("))
  /\ Error (regexpError "missing closing )" "(") =
       "error parsing regexp: missing closing ): `(`".
Proof.
  split; [|split; [exact run_bad_pattern|run]].
  intros Hclaim.
  destruct (Hclaim bad_pattern name_bob 0%nat
              (field "Name" [("form", "name"); ("valid", "("); ("msg", "bad name")]
                 reflect.String true (reflect.VString "")))
    as (output & e & Hrun & Hmsg).
  - run.
  - discriminate.
  - left. eexists. run.
  - rewrite run_bad_pattern in Hrun. injection Hrun as _ <-.
    discriminate Hmsg.
Qed.

Example run_good_name_bad_age :
  parseValidForm name_age good_name_bad_age =
    Some ([field "Name" [("form", "name"); ("valid", "^[a-z]+$"); ("msg", "bad name")]
             reflect.String true (reflect.VString "bob");
           field "Age" [("form", "age")] reflect.Int true (reflect.VInt 0)],
          Some (strconv.syntaxError "ParseInt" "old")).
Proof. run. Qed.

(** C3, on an age that is no number, after a name that passes. *)
Lemma bad_age_is_reported :
  exists output,
    parseValidForm name_age good_name_bad_age =
      Some (output, Some (strconv.syntaxError "ParseInt" "old"))
    /\ output !! 1%nat = Some (field "Age" [("form", "age")] reflect.Int true (reflect.VInt 0)).
Proof.
  apply (parse_error_of_first_failing_field name_age good_name_bad_age 1
           (field "Age" [("form", "age")] reflect.Int true (reflect.VInt 0))).
  - run.
  - run.
  - run.
  - run_pattern.
  - run.
  - run_earlier.
Defined.

(** C3 as stated fails on a numeric field that comes after a field that
    fails: the call returns the error of the earlier field. *)
Lemma earlier_error_hides_parse_error :
  ~ parse_error_of_any_field
  /\ parseValidForm name_age bad_name_bad_age = Some (name_age, Some (errors.New "bad name"))
  /\ strconv_error reflect.Int (url.Get bad_name_bad_age "age") =
       Some (strconv.syntaxError "ParseInt" "old")
  /\ errors.New "bad name" <> strconv.syntaxError "ParseInt" "old".
Proof.
  split; [|split; [exact run_bad_name_bad_age|split; [run|discriminate]]].
  intros Hclaim.
  destruct (Hclaim name_age bad_name_bad_age 1%nat
              (field "Age" [("form", "age")] reflect.Int true (reflect.VInt 0))
              (strconv.syntaxError "ParseInt" "old"))
    as (output & Hrun).
  - run.
  - run.
  - run.
  - run_pattern.
  - run.
  - rewrite run_bad_name_bad_age in Hrun. discriminate Hrun.
Qed.

Example run_signup_bad_age :
  parseValidForm signup signup_bad_age =
    Some (field "Name" [("form", "name"); ("valid", "^[a-z]+$"); ("msg", "bad name")]
            reflect.String true (reflect.VString "bob") :: drop 1 signup,
          Some (errors.New "bad age")).
Proof. run. Qed.

(** C5, on the sign-up form with a bad age: the name holds the parsed
    value, the string [bob] of the form; the age fails with its message;
    the age and the fields after it are as they were; and neither the
    fields after the age nor their form values matter. *)
Lemma bad_age_ends_the_loop :
  parseValidForm signup signup_bad_age =
    Some ([field "Name" [("form", "name"); ("valid", "^[a-z]+$"); ("msg", "bad name")]
             reflect.String true (reflect.VString "bob")] ++ drop 1 signup,
          Some (errors.New "bad age"))
  /\ (forall f, signup !! 0%nat = Some f ->
        ([field "Name" [("form", "name"); ("valid", "^[a-z]+$"); ("msg", "bad name")]
            reflect.String true (reflect.VString "bob")] ++ drop 1 signup) !! 0%nat =
          Some (stepped signup_bad_age f)
        /\ Some (reflect.held (snd (stepped signup_bad_age f))) =
             parsed_value reflect.String "bob")
  /\ (forall j, (1 < j)%nat ->
        ([field "Name" [("form", "name"); ("valid", "^[a-z]+$"); ("msg", "bad name")]
            reflect.String true (reflect.VString "bob")] ++ drop 1 signup) !! j =
          signup !! j)
  /\ parseValidForm (take 2 signup ++ private_code) signup_bad_age' =
       Some ([field "Name" [("form", "name"); ("valid", "^[a-z]+$"); ("msg", "bad name")]
                reflect.String true (reflect.VString "bob")]
               ++ drop 1 (take 2 signup) ++ private_code,
             Some (errors.New "bad age")).
Proof.
  destruct (first_error_ends_the_loop signup signup_bad_age 1
              (field "Age" [("form", "age"); ("valid", "^[0-9]+$"); ("msg", "bad age")]
                 reflect.Uint8 true (reflect.VUint 0))
              (field "Age" [("form", "age"); ("valid", "^[0-9]+$"); ("msg", "bad age")]
                 reflect.Uint8 true (reflect.VUint 0))
              (errors.New "bad age"))
    as (k & first & e1 & bound & _ & _ & _ & _ & Hstepped & Hheld & Hrun & Hlater
        & Hany & Hfirst).
  - run.
  - run.
  - destruct Hfirst as (-> & -> & ->).
    { intros j f Hj Hf. destruct j as [|j]; [|lia]. injection Hf as <-.
      exists (field "Name" [("form", "name"); ("valid", "^[a-z]+$"); ("msg", "bad name")]
                reflect.String true (reflect.VString "bob")).
      run. }
    subst bound.
    split; [exact Hrun|]. split; [|split; [exact Hlater|]].
    + intros f Hf. destruct (Hheld 0%nat f) as [Hat Hval]; [lia|exact Hf|].
      split; [exact Hat|].
      injection Hf as <-. apply Hval; run.
    + apply (Hany private_code signup_bad_age').
      intros fld Hin. each_field Hin; run.
Defined.

(** C6, on a request whose form does not parse. *)
Lemma broken_request_leaves_signup :
  ParseValidForm broken_context signup =
    Some (broken_context, signup,
          Some (libError "url" "invalid semicolon separator in query")).
Proof.
  apply (malformed_form_leaves_the_struct broken_context signup broken_request).
  run.
Defined.

Example run_private_code :
  parseValidForm private_code name_and_code =
    Some ([field "Name" [("form", "name")] reflect.String true (reflect.VString "bob");
           field "code" [("form", "code"); ("valid", "^[0-9]+$"); ("msg", "bad code")]
             reflect.Int false (reflect.VInt 7)],
          Some (errors.New "bad code")).
Proof. run. Qed.

(** C7, on an unexported field whose form value does not match. *)
Lemma private_code_is_validated :
  (forall s,
     scan {| reflect.Kind_of := reflect.Int; reflect.CanSet := false;
             reflect.held := reflect.VInt 7 |} s =
       Some ({| reflect.Kind_of := reflect.Int; reflect.CanSet := false;
                reflect.held := reflect.VInt 7 |}, None))
  /\ exists output,
       parseValidForm private_code name_and_code = Some (output, Some (errors.New "bad code"))
       /\ output !! 1%nat =
            Some (field "code" [("form", "code"); ("valid", "^[0-9]+$"); ("msg", "bad code")]
                    reflect.Int false (reflect.VInt 7)).
Proof.
  destruct (unsettable_field_is_validated_not_scanned private_code name_and_code 1
              (field "code" [("form", "code"); ("valid", "^[0-9]+$"); ("msg", "bad code")]
                 reflect.Int false (reflect.VInt 7)))
    as [Hscan Hvalid].
  - run.
  - run.
  - split; [exact Hscan|].
    destruct Hvalid as (output & e & Hrun & Hfirst).
    + discriminate.
    + eexists. split; run.
    + destruct Hfirst as [-> Hfield]; [run_earlier|].
      exists output. split; [exact Hrun|exact Hfield].
Defined.

Example run_good_name_no_age :
  parseValidForm name_age good_name_no_age =
    Some ([field "Name" [("form", "name"); ("valid", "^[a-z]+$"); ("msg", "bad name")]
             reflect.String true (reflect.VString "bob");
           field "Age" [("form", "age")] reflect.Int true (reflect.VInt 0)],
          Some (strconv.syntaxError "ParseInt" "")).
Proof. run. Qed.

(** C8, on a form without the age, after a name that passes. *)
Lemma absent_age_is_a_syntax_error :
  formValue_of good_name_no_age
    (field "Age" [("form", "age")] reflect.Int true (reflect.VInt 0)) = ""
  /\ exists output,
       parseValidForm name_age good_name_no_age =
         Some (output, Some (strconv.syntaxError "ParseInt" ""))
       /\ output !! 1%nat =
            Some (field "Age" [("form", "age")] reflect.Int true (reflect.VInt 0)).
Proof.
  destruct (absent_parameter_is_the_empty_string name_age good_name_no_age 1
              (field "Age" [("form", "age")] reflect.Int true (reflect.VInt 0)))
    as (Hvalue & _ & Hnumeric).
  - run.
  - run.
  - run.
  - run_pattern.
  - run_earlier.
  - split; [exact Hvalue|]. apply Hnumeric. right. run.
Defined.

(** C8 as stated fails on a numeric field without a parameter that comes
    after a field that fails: the error returned is no parse error. *)
Lemma earlier_error_hides_absent_parameter :
  ~ absent_parameter_any_field
  /\ parseValidForm name_age bad_name_no_age = Some (name_age, Some (errors.New "bad name"))
  /\ bad_name_no_age !! "age" = None
  /\ ~ is_parse_error (errors.New "bad name").
Proof.
  assert (~ is_parse_error (errors.New "bad name")) as Hnot
    by (intros (fn & num & err & Heq); discriminate Heq).
  split; [|split; [exact run_bad_name_no_age|split; [run|exact Hnot]]].
  intros Hclaim.
  destruct (Hclaim name_age bad_name_no_age 1%nat
              (field "Age" [("form", "age")] reflect.Int true (reflect.VInt 0)))
    as [_ Hnumeric].
  - run.
  - run.
  - run.
  - run_pattern.
  - destruct Hnumeric as (output & e & Hrun & Hparse); [right; run|].
    rewrite run_bad_name_no_age in Hrun. injection Hrun as _ <-. by apply Hnot.
Qed.


(** C4, on a fresh writer: the header, then one write of the body. *)
Example run_JSON :
  http.log (rw (fst (JSON broken_context (GoBool true)))) =
    [http.EvHeaderAdd "Content-Type" "application/json";
     http.EvWrite (bytes_of "true" ++ [Byte.x0a])]
  /\ http.log (rw (fst (XML broken_context (GoBool true)))) =
       [http.EvHeaderAdd "Content-Type" "application/xml";
        http.EvWrite (bytes_of "<bool>true</bool>")]
  /\ http.log (rw (fst (ASN1 broken_context (GoBool true)))) =
       [http.EvHeaderAdd "Content-Type" "application/asn1";
        http.EvWrite [Byte.x01; Byte.x01; Byte.xff]]
  /\ http.log (rw (fst (ASN1 broken_context GoChan))) =
       [http.EvHeaderAdd "Content-Type" "application/asn1"].
Proof. repeat split. Qed.

(** Binding the sign-up form a second time changes nothing. *)
Lemma signup_twice :
  parseValidForm signup_bound signup_form = Some (signup_bound, None).
Proof.
  apply (parseValidForm_idempotent signup signup_form signup_bound None). run.
Defined.

(** A second age and a parameter that no field names change nothing. *)
Lemma signup_ignores_more :
  parseValidForm signup signup_form_more = parseValidForm signup signup_form.
Proof.
  apply (parseValidForm_reads_first_values signup signup_form signup_form_more).
  intros fld Hin. each_field Hin; run.
Defined.

(** The bad age is reported alike on the fresh struct and on the bound one. *)
Lemma bad_age_whatever_is_held :
  snd <$> parseValidForm signup signup_bad_age =
  snd <$> parseValidForm signup_bound signup_bad_age.
Proof.
  apply (parseValidForm_error_of_shape signup signup_bound signup_bad_age).
  repeat constructor.
Defined.

(** The error on the bad age of [name_age] is of the third sort. *)
Lemma bad_age_error_sort :
  exists (k : nat) fld,
    name_age !! k = Some fld
    /\ earlier_fields_pass good_name_bad_age name_age k
    /\ [field "Name" [("form", "name"); ("valid", "^[a-z]+$"); ("msg", "bad name")]
          reflect.String true (reflect.VString "bob");
        field "Age" [("form", "age")] reflect.Int true (reflect.VInt 0)] !! k = Some fld
    /\ ((pattern_of fld <> ""
         /\ invalid_pattern (pattern_of fld) (strconv.syntaxError "ParseInt" "old"))
        \/ (pattern_of fld <> ""
            /\ fails_to_match (pattern_of fld) (formValue_of good_name_bad_age fld)
            /\ strconv.syntaxError "ParseInt" "old" = errors.New (msg_of fld))
        \/ (matches_pattern (pattern_of fld) (formValue_of good_name_bad_age fld)
            /\ reflect.CanSet (snd fld) = true
            /\ parsed_kind (reflect.Kind_of (snd fld))
            /\ strconv_error (reflect.Kind_of (snd fld))
                 (formValue_of good_name_bad_age fld) =
               Some (strconv.syntaxError "ParseInt" "old"))).
Proof.
  apply (parseValidForm_error_sorts name_age good_name_bad_age). run.
Defined.

(** A form without the age fails the call. *)
Lemma absent_age_fails :
  exists output e, parseValidForm name_age good_name_no_age = Some (output, Some e).
Proof.
  apply (empty_value_fails_the_call name_age good_name_no_age 1
           (field "Age" [("form", "age")] reflect.Int true (reflect.VInt 0))).
  - run.
  - run.
  - run.
  - right. run.
Defined.

(** The struct of strings and of kinds [scan] has no case for: the title
    is emptied, the handle, the tags and the count are as they were. *)
Lemma lenient_is_bound :
  parseValidForm lenient lenient_form =
    Some ([field "Title" [("form", "title")] reflect.String true (reflect.VString "");
           field "Handle" [("form", "handle")] reflect.Uintptr true (reflect.VUint 5);
           field "Tags" [("form", "tags")] reflect.Slice true (reflect.VOther "[]string(nil)");
           field "count" [("form", "count")] reflect.Int false (reflect.VInt 1)], None).
Proof.
  apply (strings_never_fail lenient lenient_form).
  intros fld Hin. each_field Hin; (split; [run|]).
  - right. left. run.
  - right. right. run.
  - right. right. run.
  - left. run.
Defined.


(** The sign-up struct holds values of its kinds before and after. *)
Lemma signup_holds_the_kinds :
  Forall (fun fld => holds_its_kind (snd fld)) signup_bound.
Proof.
  apply (parseValidForm_holds_the_kinds signup signup_form signup_bound None).
  - repeat constructor; cbn;
      first [ exact I | by eexists | (eexists; split; [reflexivity|cbn; lia]) ].
  - run.
Defined.

End Runs.
